(** * backend/main.py: the PDF-to-speech pipeline, embedded and verified

    The file follows [src/backend/main.py].  Python values are modelled as
    the code has them: a [str] is a [string] whose characters stand for the
    code points below 256, a [dict] keyed by job identifiers is a [gmap], a
    [list] is a [list], an exception is a value of an error monad.  The two
    collaborators of the service, the PDF reader and the speech model, are
    fields of an environment record. *)

From Stdlib Require Import ZArith NArith String Ascii List Bool Lia.
From Stdlib Require Import Decimal DecimalString DecimalNat Sorted.
From stdpp Require Import base option list gmap strings.

Local Open Scope string_scope.
Local Open Scope list_scope.
Local Open Scope nat_scope.

(** ** Python's built-in string operations *)
Module Py.

(** [ord(c)] for a code point below 256. *)
Definition ord (c : ascii) : N := N_of_ascii c.

Definition between (lo hi : N) (c : ascii) : bool :=
  ((lo <=? ord c) && (ord c <=? hi))%N.

(** [str.isspace] on one character, which is also the class [\s] of
    [re] on [str] patterns.  Below 256 the white space characters are
    TAB..CR, FS..US, the space, NEL (133) and the no-break space (160). *)
Definition isspace (c : ascii) : bool :=
  between 9 13 c || between 28 32 c || (ord c =? 133)%N || (ord c =? 160)%N.

(** The class [\d] of [re]; below 256 the decimal digits are 0..9. *)
Definition isdigit (c : ascii) : bool := between 48 57 c.

(** The ranges [A-Z] and [a-z]. *)
Definition is_AZ (c : ascii) : bool := between 65 90 c.
Definition is_az (c : ascii) : bool := between 97 122 c.

(** Simple case folding of the ASCII letters; no other character below
    256 folds to an ASCII letter. *)
Definition lower (c : ascii) : ascii :=
  if is_AZ c then ascii_of_N (ord c + 32) else c.
Definition upper (c : ascii) : ascii :=
  if is_az c then ascii_of_N (ord c - 32) else c.

(** [s[:n]] and [s[n:]] for [n >= 0]. *)
Fixpoint str_take (n : nat) (s : string) : string :=
  match n, s with
  | S n', String c s' => String c (str_take n' s')
  | _, _ => ""
  end.

Fixpoint str_drop (n : nat) (s : string) : string :=
  match n, s with
  | S n', String _ s' => str_drop n' s'
  | _, _ => s
  end.

(** [bool(s)]: a string is truthy when it is not empty. *)
Definition truthy (s : string) : bool :=
  match s with "" => false | String _ _ => true end.

(** [s.lstrip()], [s.rstrip()], [s.strip()] without argument. *)
Fixpoint lstrip (s : string) : string :=
  match s with
  | "" => ""
  | String c s' => if isspace c then lstrip s' else s
  end.

Fixpoint rstrip (s : string) : string :=
  match s with
  | "" => ""
  | String c s' =>
      match rstrip s' with
      | "" => if isspace c then "" else String c ""
      | r => String c r
      end
  end.

Definition strip (s : string) : string := rstrip (lstrip s).

(** [s.split(sep)] for a non-empty separator: the pieces between the
    leftmost, non-overlapping occurrences of [sep].  [skip] counts the
    characters of an occurrence that are still to be passed over. *)
Fixpoint split_aux (sep s : string) (skip : nat) : list string :=
  match s with
  | "" => [""]
  | String c s' =>
      match skip with
      | S k => split_aux sep s' k
      | O =>
          if String.prefix sep s then "" :: split_aux sep s' (String.length sep - 1)
          else match split_aux sep s' 0 with
               | piece :: rest => String c piece :: rest
               | [] => [String c ""]
               end
      end
  end.

Definition split (sep s : string) : list string := split_aux sep s 0.

(** [s.replace(old, new)]: every leftmost, non-overlapping occurrence of
    [old] is replaced; the replaced text is not scanned again.  With an
    empty [old], Python puts [new] before every character and at the
    end. *)
Fixpoint replace_aux (old new s : string) (skip : nat) : string :=
  match s with
  | "" => ""
  | String c s' =>
      match skip with
      | S k => replace_aux old new s' k
      | O =>
          if String.prefix old s then new +:+ replace_aux old new s' (String.length old - 1)
          else String c (replace_aux old new s' 0)
      end
  end.

Fixpoint intersperse (new s : string) : string :=
  match s with
  | "" => new
  | String c s' => new +:+ String c (intersperse new s')
  end.

Definition replace (old new s : string) : string :=
  match old with
  | "" => intersperse new s
  | String _ _ => replace_aux old new s 0
  end.

(** [sep.join(parts)]. *)
Fixpoint join (sep : string) (parts : list string) : string :=
  match parts with
  | [] => ""
  | [p] => p
  | p :: rest => p +:+ sep +:+ join sep rest
  end.

(** [str(n)] and the format specs [{n}] and [{n:04d}] of an integer. *)
Definition str_of_nat (n : nat) : string :=
  NilEmpty.string_of_uint (Nat.to_uint n).

Definition str_of_Z (z : Z) : string :=
  NilEmpty.string_of_int (Z.to_int z).

Fixpoint zeros (n : nat) : string :=
  match n with O => "" | S n' => String "0" (zeros n') end.

Definition format_04d (n : nat) : string :=
  let digits := str_of_nat n in
  zeros (4 - String.length digits) +:+ digits.

(** [enumerate(l, start)]. *)
Fixpoint enumerate {A} (start : nat) (l : list A) : list (nat * A) :=
  match l with
  | [] => []
  | x :: l' => (start, x) :: enumerate (S start) l'
  end.

(** [os.path.join(a, b)] and [os.path.basename(p)] of [posixpath]. *)
Fixpoint ends_with_slash (s : string) : bool :=
  match s with
  | "" => false
  | String c "" => Ascii.eqb c "/"
  | String _ s' => ends_with_slash s'
  end.

Definition os_path_join (a b : string) : string :=
  if String.prefix "/" b then b
  else if negb (truthy a) || ends_with_slash a then a +:+ b
  else a +:+ "/" +:+ b.

Fixpoint has_slash (s : string) : bool :=
  match s with
  | "" => false
  | String c s' => Ascii.eqb c "/" || has_slash s'
  end.

Fixpoint os_path_basename (s : string) : string :=
  match s with
  | "" => ""
  | String _ s' => if has_slash s then os_path_basename s' else s
  end.

End Py.

(** ** The fragment of Python's [re] that main.py uses *)
Module Re.
Import Py.

(** One-character atoms: a literal, a set such as [[Ff]], a range such
    as [[A-Z]], and the classes [\s] and [\d]. *)
Inductive atom : Type :=
| Lit (c : ascii)
| OneOf (cs : string)
| Range (lo hi : ascii)
| Space
| Digit.

(** An item is an atom, or an atom under the greedy [+]. *)
Inductive item : Type :=
| One (a : atom)
| Plus (a : atom).

Definition pattern : Type := list item.

(** The items of a literal word. *)
Fixpoint lits (w : string) : pattern :=
  match w with
  | "" => []
  | String c w' => One (Lit c) :: lits w'
  end.

Fixpoint mem_char (x : ascii) (cs : string) : bool :=
  match cs with
  | "" => false
  | String c cs' => Ascii.eqb x c || mem_char x cs'
  end.

Definition in_range (lo hi x : ascii) : bool := between (ord lo) (ord hi) x.

(** Does the atom accept the character?  Under [re.IGNORECASE] a literal,
    a set or a range accepts a character when it accepts its lower-case
    or its upper-case form. *)
Definition atom_accepts (icase : bool) (a : atom) (x : ascii) : bool :=
  match a with
  | Lit c =>
      if icase then Ascii.eqb (lower x) (lower c) else Ascii.eqb x c
  | OneOf cs =>
      if icase then mem_char (lower x) cs || mem_char (upper x) cs
      else mem_char x cs
  | Range lo hi =>
      if icase then in_range lo hi (lower x) || in_range lo hi (upper x)
      else in_range lo hi x
  | Space => isspace x
  | Digit => isdigit x
  end.

(** [match_plus cls k s]: the greedy [+] with backtracking.  As many
    characters of the class as possible are taken first; when the rest of
    the pattern, [k], fails after them, one character fewer is tried. *)
Fixpoint match_plus (cls : ascii -> bool) (k : string -> option nat)
    (s : string) : option nat :=
  match s with
  | "" => None
  | String c s' =>
      if cls c then
        match match_plus cls k s' with
        | Some n => Some (S n)
        | None => S <$> k s'
        end
      else None
  end.

(** [match_here icase p s]: the length of the match of [p] that starts at
    the first character of [s], if there is one ([re.match]). *)
Fixpoint match_here (icase : bool) (p : pattern) (s : string) : option nat :=
  match p with
  | [] => Some 0
  | One a :: p' =>
      match s with
      | String c s' =>
          if atom_accepts icase a c then S <$> match_here icase p' s' else None
      | "" => None
      end
  | Plus a :: p' => match_plus (atom_accepts icase a) (match_here icase p') s
  end.

(** The scanner shared by [re.finditer], [re.findall] and [re.sub]: the
    text is read from left to right, a match is taken where one starts,
    and the search goes on behind it.  [skip] counts the characters of
    the last match still to be passed over.  The patterns of main.py
    never match the empty string (lemma [match_here_nonempty] below), so
    the case of an empty match is treated as no match. *)
Fixpoint finditer_aux (icase : bool) (p : pattern) (s : string)
    (pos skip : nat) : list (nat * nat) :=
  match s with
  | "" => []
  | String _ s' =>
      match skip with
      | S k => finditer_aux icase p s' (S pos) k
      | O =>
          match match_here icase p s with
          | Some (S n) => (pos, S n) :: finditer_aux icase p s' (S pos) n
          | _ => finditer_aux icase p s' (S pos) 0
          end
      end
  end.

(** The spans [(start, length)] of the matches, as [re.finditer] gives
    them. *)
Definition finditer (icase : bool) (p : pattern) (s : string)
    : list (nat * nat) :=
  finditer_aux icase p s 0 0.

Fixpoint findall_aux (icase : bool) (p : pattern) (s : string)
    (skip : nat) : list string :=
  match s with
  | "" => []
  | String _ s' =>
      match skip with
      | S k => findall_aux icase p s' k
      | O =>
          match match_here icase p s with
          | Some (S n) => str_take (S n) s :: findall_aux icase p s' n
          | _ => findall_aux icase p s' 0
          end
      end
  end.

(** [re.findall(p, s, flags)] for a pattern without groups: the matched
    substrings, from left to right. *)
Definition findall (icase : bool) (p : pattern) (s : string) : list string :=
  findall_aux icase p s 0.

Fixpoint sub_aux (icase : bool) (p : pattern) (repl : string -> string)
    (s : string) (skip : nat) : string :=
  match s with
  | "" => ""
  | String c s' =>
      match skip with
      | S k => sub_aux icase p repl s' k
      | O =>
          match match_here icase p s with
          | Some (S n) => repl (str_take (S n) s) +:+ sub_aux icase p repl s' n
          | _ => String c (sub_aux icase p repl s' 0)
          end
      end
  end.

(** [re.sub(p, repl, s)]; the replacement template is given as a
    function of the matched text. *)
Definition sub (icase : bool) (p : pattern) (repl : string -> string)
    (s : string) : string :=
  sub_aux icase p repl s 0.

End Re.

(** ** backend/main.py *)
Module Backend.
Import Py Re.

(** *** Data model *)

(** The dictionaries that [extract_text_from_pdf] appends:
    [{"text": .., "page": .., "total_pages": ..}]. *)
Record RawSegment : Type := mkRaw {
  raw_text : string;
  raw_page : nat;
  raw_total_pages : nat
}.

Record TextSegment : Type := mkSegment {
  text : string;
  page : nat;
  has_figure_reference : bool;
  figure_references : list string
}.

Record ProcessingStatus : Type := mkStatus {
  stage : string;
  progress : Z;
  message : option string
}.

Record ProcessingResult : Type := mkResult {
  job_id : string;
  segments : list TextSegment;
  total_pages : nat;
  status : string
}.

(** What [processing_jobs] holds for a job: a status while the job runs,
    the result once it is done. *)
Inductive entry : Type :=
| Status (s : ProcessingStatus)
| Result (r : ProcessingResult).

(** Exceptions, and computations that may raise one. *)
Inductive exn : Type :=
| HTTPException (status_code : Z) (detail : string)
| IndexError
| Failure (msg : string).

Inductive result (A : Type) : Type :=
| Ok (a : A)
| Raise (e : exn).
Arguments Ok {A} a.
Arguments Raise {A} e.

(** [str(e)]; Starlette prints an [HTTPException] as [code: detail]. *)
Definition str_of_exn (e : exn) : string :=
  match e with
  | HTTPException code detail => str_of_Z code +:+ ": " +:+ detail
  | IndexError => "list index out of range"
  | Failure msg => msg
  end.

(** The collaborators.  [pdf_pages path] is what [pdfplumber.open(path)]
    gives: it raises, or it yields for every page what
    [page.extract_text()] returns ([None] or a text).  [tts_model] is the
    global of that name, [None] when no model could be loaded; a loaded
    model is its [tts_to_file(text, file_path)], which writes the file
    ([true]) or raises ([false]).  [mkdtemp] is the directory that
    [tempfile.mkdtemp()] hands to the job. *)
Record Env : Type := mkEnv {
  pdf_pages : string -> result (list (option string));
  tts_model : option (string -> string -> bool);
  mkdtemp : string
}.

(** The module's globals [processing_jobs] and [audio_files], and the
    files that exist on disk. *)
Record World : Type := mkWorld {
  processing_jobs : gmap string entry;
  audio_files : gmap string (list string);
  disk : gset string
}.

(** *** extract_text_from_pdf *)

Definition paragraph_separator : string := String "010" (String "010" "").

(** [[p.strip() for p in text.split("\n\n") if p.strip()]] *)
Definition paragraphs (page_text : string) : list string :=
  map strip (filter (fun p => truthy (strip p) = true)
                    (split paragraph_separator page_text)).

(** The segments one page appends: the body of the outer loop. *)
Definition page_segments (total page_num : nat) (extracted : option string)
    : list RawSegment :=
  match extracted with
  | Some page_text =>
      if truthy page_text && truthy (strip page_text) then
        fold_left
          (fun segs paragraph =>
             if 50 <? String.length paragraph
             then segs ++ [mkRaw paragraph page_num total]
             else segs)
          (paragraphs page_text) []
      else []
  | None => []
  end.

Definition segments_of_pages (pages : list (option string)) : list RawSegment :=
  fold_left
    (fun segs '(page_num, extracted) =>
       segs ++ page_segments (length pages) page_num extracted)
    (enumerate 1 pages) [].

Definition extract_text_from_pdf (env : Env) (pdf_path : string)
    : result (list RawSegment) :=
  match pdf_pages env pdf_path with
  | Ok pages => Ok (segments_of_pages pages)
  | Raise e => Raise e
  end.

(** *** detect_figure_references *)

Definition word_space_number (first : string) (rest : string) : pattern :=
  One (OneOf first) :: lits rest ++ [Plus Space; Plus Digit].

Definition two_words (w1 w2 : string) : pattern :=
  lits w1 ++ [Plus Space] ++ lits w2.

Definition figure_patterns : list pattern :=
  [ word_space_number "Ff" "igure";
    word_space_number "Tt" "able";
    word_space_number "Cc" "hart";
    word_space_number "Gg" "raph";
    word_space_number "Dd" "iagram";
    two_words "see" "above";
    two_words "see" "below";
    two_words "as" "shown";
    two_words "illustrated" "in" ].

(** The dictionary returned by [detect_figure_references]. *)
Record RefInfo : Type := mkRefInfo {
  ref_has_figure_reference : bool;
  ref_figure_references : list string
}.

Definition detect_figure_references (txt : string) : RefInfo :=
  let references :=
    fold_left (fun refs pat => refs ++ findall true pat txt) figure_patterns []
  in
  mkRefInfo (0 <? length references) references.

(** *** clean_text_for_tts *)

Definition whitespace_run : pattern := [Plus Space].
Definition dot_capital : pattern := [One (Lit "."); One (Range "A" "Z")].
Definition comma_capital : pattern := [One (Lit ","); One (Range "A" "Z")].

(** The group [\1] of the two pause patterns: the second character. *)
Definition group1 (matched : string) : string := str_drop 1 matched.

Definition collapse_whitespace (txt : string) : string :=
  sub false whitespace_run (fun _ => " ") txt.

Definition pause_after_dot (txt : string) : string :=
  sub false dot_capital (fun m => ". " +:+ group1 m) txt.

Definition pause_after_comma (txt : string) : string :=
  sub false comma_capital (fun m => ", " +:+ group1 m) txt.

Definition abbreviations : list (string * string) :=
  [ ("et al.", "et al");
    ("e.g.", "for example");
    ("i.e.", "that is");
    ("vs.", "versus");
    ("etc.", "et cetera") ].

Definition expand_abbreviations (txt : string) : string :=
  fold_left (fun t '(abbr, replacement) => replace abbr replacement t)
            abbreviations txt.

(** The three [re.sub] calls, before the abbreviations are handled. *)
Definition insert_pauses (txt : string) : string :=
  pause_after_comma (pause_after_dot (collapse_whitespace txt)).

Definition clean_text_for_tts (txt : string) : string :=
  strip (expand_abbreviations (insert_pauses txt)).

(** *** process_text_segments *)

Definition process_text_segments (segs : list RawSegment) : list TextSegment :=
  fold_left
    (fun processed segment =>
       let ref_info := detect_figure_references (raw_text segment) in
       let cleaned_text := clean_text_for_tts (raw_text segment) in
       processed ++
         [mkSegment cleaned_text (raw_page segment)
            (ref_has_figure_reference ref_info)
            (ref_figure_references ref_info)])
    segs [].

(** *** generate_audio_for_segment *)

Definition text_to_speak (segment : TextSegment) : string :=
  if has_figure_reference segment then
    ("Please refer to " +:+ join ", " (figure_references segment)
       +:+ " mentioned in this section. ") +:+ text segment
  else text segment.

Definition segment_file_name (segment_index : nat) : string :=
  "segment_" +:+ format_04d segment_index +:+ ".wav".

Definition output_file (output_dir : string) (segment_index : nat) : string :=
  os_path_join output_dir (segment_file_name segment_index).

Definition write_file (path : string) (w : World) : World :=
  mkWorld (processing_jobs w) (audio_files w) ({[ path ]} ∪ disk w).

(** The path of the rendered file, or the exception raised: the
    [HTTPException] when no model is loaded, the model's own failure
    (printed and raised again) otherwise. *)
Definition generate_audio_for_segment (env : Env) (segment : TextSegment)
    (output_dir : string) (segment_index : nat) (w : World)
    : result string * World :=
  match tts_model env with
  | None => (Raise (HTTPException 500 "TTS model not available"), w)
  | Some tts_to_file =>
      let file := output_file output_dir segment_index in
      if tts_to_file (text_to_speak segment) file
      then (Ok file, write_file file w)
      else (Raise (Failure "tts_to_file"), w)
  end.

(** *** process_pdf_background *)

(** [processing_jobs[job_id] = e] *)
Definition set_job (job : string) (e : entry) (w : World) : World :=
  mkWorld (<[job := e]> (processing_jobs w)) (audio_files w) (disk w).

(** [audio_files[job_id] = l] *)
Definition set_audio (job : string) (l : list string) (w : World) : World :=
  mkWorld (processing_jobs w) (<[job := l]> (audio_files w)) (disk w).

(** [60 + (30 * (i + 1) / total_segments)] under [int(..)].  Python
    divides the two integers into a correctly rounded binary64 quotient
    and truncates the sum; for fewer than 2^46 segments that is the
    floor of the exact quotient, which is what is written here. *)
Definition segment_progress (i total_segments : nat) : Z :=
  (60 + (30 * (Z.of_nat i + 1)) / Z.of_nat total_segments)%Z.

Definition segment_stage (i total_segments : nat) : string :=
  "Generating audio segment " +:+ str_of_nat (i + 1) +:+ "/"
    +:+ str_of_nat total_segments +:+ "...".

(** One turn of the synthesis loop: the [try] block with its handler,
    which prints and goes on to the next segment.  A job without an audio
    list would make the append raise a [KeyError], which the handler
    catches as well. *)
Definition synthesis_step (env : Env) (job : string) (audio_dir : string)
    (total_segments : nat) (w : World) (item : nat * TextSegment) : World :=
  let '(i, segment) := item in
  match generate_audio_for_segment env segment audio_dir i w with
  | (Ok audio_file, w1) =>
      match audio_files w1 !! job with
      | Some produced =>
          let w2 := set_audio job (produced ++ [audio_file]) w1 in
          set_job job
            (Status (mkStatus (segment_stage i total_segments)
                              (segment_progress i total_segments) None))
            w2
      | None => w1
      end
  | (Raise _, w1) => w1
  end.

(** The loop over [enumerate(processed_segments)], cut after the first
    [attempts] turns. *)
Definition synthesis_loop (env : Env) (job : string) (audio_dir : string)
    (processed : list TextSegment) (attempts : nat) (w : World) : World :=
  fold_left (synthesis_step env job audio_dir (length processed))
            (take attempts (enumerate 0 processed)) w.

(** The world when the loop is entered: the status of stage 3 is set and
    [audio_files[job_id] = []]. *)
Definition enter_synthesis (job : string) (w : World) : World :=
  set_audio job []
    (set_job job (Status (mkStatus "Generating AI voice..." 60 None)) w).

(** [segments[0]["total_pages"] if segments else 0] *)
Definition first_total_pages (segs : list RawSegment) : nat :=
  match segs with
  | first :: _ => raw_total_pages first
  | [] => 0
  end.

Definition process_pdf_background (env : Env) (job pdf_path : string)
    (w : World) : World :=
  let w := set_job job (Status (mkStatus "Extracting text from PDF..." 20 None)) w in
  match extract_text_from_pdf env pdf_path with
  | Raise e =>
      set_job job
        (Status (mkStatus ("Error: " +:+ str_of_exn e) 0 (Some (str_of_exn e)))) w
  | Ok segs =>
      let w := set_job job
                 (Status (mkStatus "Analyzing content for voice processing..." 40 None)) w in
      let processed_segments := process_text_segments segs in
      let w := enter_synthesis job w in
      let audio_dir := mkdtemp env in
      let w := synthesis_loop env job audio_dir processed_segments
                 (length processed_segments) w in
      let w := set_job job (Status (mkStatus "Finalizing..." 100 None)) w in
      set_job job
        (Result (mkResult job processed_segments (first_total_pages segs) "completed")) w
  end.

(** *** get_audio_segment *)

(** [l[i]] for a Python integer: a negative index counts from the end. *)
Definition py_index {A} (l : list A) (i : Z) : result A :=
  let n := Z.of_nat (length l) in
  let j := (if i <? 0 then i + n else i)%Z in
  if (j <? 0)%Z then Raise IndexError
  else match l !! Z.to_nat j with
       | Some x => Ok x
       | None => Raise IndexError
       end.

(** What the endpoint answers: the file response, or the exception that
    leaves the handler (FastAPI turns an [HTTPException] into the
    response of its status code and any other exception into a 500). *)
Inductive FileResponse : Type :=
  mkFileResponse (path media_type filename : string).

Definition get_audio_segment (w : World) (job : string) (segment_index : Z)
    : result FileResponse :=
  match audio_files w !! job with
  | None => Raise (HTTPException 404 "Audio files not found")
  | Some produced =>
      if (segment_index >=? Z.of_nat (length produced))%Z then
        Raise (HTTPException 404 "Segment not found")
      else
        match py_index produced segment_index with
        | Raise e => Raise e
        | Ok audio_file =>
            if bool_decide (audio_file ∈ disk w) then
              Ok (mkFileResponse audio_file "audio/wav"
                    ("segment_" +:+ str_of_Z segment_index +:+ ".wav"))
            else Raise (HTTPException 404 "Audio file not found")
        end
  end.

(** Is the answer a not-found error? *)
Definition is_not_found {A} (r : result A) : bool :=
  match r with
  | Raise (HTTPException 404 _) => true
  | _ => false
  end.

End Backend.

Import Py Re Backend.

(** ** Vocabulary of the statements *)

(** Every character of the string is white space. *)
Fixpoint all_space (s : string) : bool :=
  match s with
  | "" => true
  | String c s' => isspace c && all_space s'
  end.

(** [chain R prev s next]: [R] holds of every two neighbours of
    [prev], the characters of [s], [next]. *)
Fixpoint chain (R : ascii -> ascii -> bool) (prev : ascii) (s : string)
    (next : ascii) : bool :=
  match s with
  | "" => R prev next
  | String c s' => R prev c && chain R c s' next
  end.

(** A white space character is a space and does not follow white space. *)
Definition single_space (prev c : ascii) : bool :=
  if isspace c then Ascii.eqb c " " && negb (isspace prev) else true.

(** A capital letter A..Z does not follow the punctuation mark [q]. *)
Definition no_capital_after (q : ascii) (prev c : ascii) : bool :=
  negb (Ascii.eqb prev q && is_AZ c).

(** The white space of a text is normal when every white space character
    is a space between two other characters. *)
Definition spaces_normal (s : string) : bool :=
  match s with
  | "" => true
  | String _ _ => chain single_space " " s " "
  end.

(** No full stop or comma is directly followed by a capital letter. *)
Definition pauses_present (s : string) : bool :=
  chain (no_capital_after ".") "a" s "a" && chain (no_capital_after ",") "a" s "a".

(** The maximal white space runs of a text: [re.findall(r"\s+", s)]. *)
Definition whitespace_runs (s : string) : list string :=
  findall false whitespace_run s.

(** What [re.sub(r"\s+", " ", s)] computes, read off character by
    character; [in_run] tells that the previous character was white
    space. *)
Fixpoint collapse_from (in_run : bool) (s : string) : string :=
  match s with
  | "" => ""
  | String c s' =>
      if isspace c then
        if in_run then collapse_from true s' else String " " (collapse_from true s')
      else String c (collapse_from false s')
  end.

Definition starts_with_capital (s : string) : bool :=
  match s with
  | String c _ => is_AZ c
  | "" => false
  end.

(** What the substitution of [q([A-Z])] by [q \1] computes. *)
Fixpoint pause_after (q : ascii) (s : string) : string :=
  match s with
  | "" => ""
  | String c s' =>
      if Ascii.eqb c q && starts_with_capital s'
      then String c (String " " (pause_after q s'))
      else String c (pause_after q s')
  end.

(** Case folding of a text. *)
Fixpoint lower_str (s : string) : string :=
  match s with
  | "" => ""
  | String c s' => String (lower c) (lower_str s')
  end.

(** The spans lie one behind the other, from position [from] on, and none
    is empty. *)
Fixpoint ascending (from : nat) (spans : list (nat * nat)) : Prop :=
  match spans with
  | [] => True
  | (start, len) :: rest => from <= start /\ 0 < len /\ ascending (start + len) rest
  end.

(** Does the synthesis of the segment at index [i] succeed? *)
Definition synthesis_ok (env : Env) (audio_dir : string)
    (item : nat * TextSegment) : bool :=
  match tts_model env with
  | Some tts_to_file =>
      tts_to_file (text_to_speak (snd item)) (output_file audio_dir (fst item))
  | None => false
  end.

(** The indices of the segments rendered during the first [attempts] turns
    of the loop. *)
Definition rendered_indices (env : Env) (audio_dir : string)
    (processed : list TextSegment) (attempts : nat) : list nat :=
  map fst (filter (fun item => synthesis_ok env audio_dir item = true)
                  (take attempts (enumerate 0 processed))).

(** The entry of the job is a status with the given progress. *)
Definition status_progress (e : option entry) : option Z :=
  match e with
  | Some (Status s) => Some (progress s)
  | _ => None
  end.

(** [s[start : start + len]] *)
Definition slice (start len : nat) (s : string) : string :=
  str_take len (str_drop start s).

(** The number of white space characters at the start of a text. *)
Fixpoint leading_space (s : string) : nat :=
  match s with
  | "" => 0
  | String c s' => if isspace c then S (leading_space s') else 0
  end.

(** A text [new] is absorbing for [R] when it may stand between any left
    neighbour and any text that is a chain behind some character. *)
Definition absorbing (R : ascii -> ascii -> bool) (new : string) : Prop :=
  forall a x t b, chain R x t b = true -> chain R a (new +:+ t) b = true.

(** A character that may follow anything, and a character that may stand
    before whatever may follow something. *)
Definition left_open (R : ascii -> ascii -> bool) (h : ascii) : Prop :=
  forall a, R a h = true.

Definition right_open (R : ascii -> ascii -> bool) (l : ascii) : Prop :=
  forall x y, R x y = true -> R l y = true.

(** Every spoken form of the abbreviation table is absorbing. *)
Definition admissible (R : ascii -> ascii -> bool) : Prop :=
  Forall (fun pair => absorbing R (snd pair)) abbreviations.

(** The status written after the segment of index [i] has been rendered. *)
Definition written_status (total i : nat) : entry :=
  Status (mkStatus (segment_stage i total) (segment_progress i total) None).

(** ** Sample inputs *)

Definition fifty : string := "12345678901234567890123456789012345678901234567890".

Definition empty_world : World := mkWorld ∅ ∅ ∅.

Definition sample_paragraph (label : string) : string :=
  label +:+ " paragraph of the paper, long enough to pass the segmenter.".

Definition sample_page : string :=
  sample_paragraph "First" +:+ paragraph_separator
    +:+ sample_paragraph "Second" +:+ paragraph_separator
    +:+ sample_paragraph "Third".

(** A speech model that fails on the segment of index [bad] only. *)
Definition model_failing_on (audio_dir : string) (bad : nat)
    : string -> string -> bool :=
  fun _ file => negb (String.eqb file (output_file audio_dir bad)).

Definition sample_env (bad : nat) : Env :=
  mkEnv (fun _ => Ok [Some sample_page])
        (Some (model_failing_on "/tmp/audio" bad))
        "/tmp/audio".

Definition blank_env : Env :=
  mkEnv (fun _ => Ok [Some "  "; None; Some "short"]) None "/tmp/audio".

Definition mute_env : Env :=
  mkEnv (fun _ => Ok [Some sample_page]) None "/tmp/audio".

Definition sample_segments : list TextSegment :=
  process_text_segments (segments_of_pages [Some sample_page]).

(** The world after the job of [sample_env 1], whose second segment fails. *)
Definition sample_final : World :=
  process_pdf_background (sample_env 1) "job" "paper.pdf" empty_world.

(** ** The other endpoints of main.py *)
Module Service.
Import Py Re Backend.

(** [s.endswith(suffix)] *)
Definition endswith (suffix s : string) : bool :=
  (String.length suffix <=? String.length s)
  && String.eqb (str_drop (String.length s - String.length suffix) s) suffix.

(** The uploaded file: [file.filename] and the bytes read from it. *)
Record UploadFile : Type := mkUpload {
  filename : string;
  content : string
}.

(** What the system hands to one upload request: the identifier that
    [uuid.uuid4()] draws, the directory of [tempfile.mkdtemp()], and
    whether [open(path, "wb")] succeeds. *)
Record Request : Type := mkRequest {
  uuid4 : string;
  upload_dir : string;
  open_wb : string -> bool
}.

(** The answer [{"job_id": ..}] together with the background task that
    was added: [process_pdf_background(job_id, pdf_path)]. *)
Record Accepted : Type := mkAccepted {
  answer_job_id : string;
  task_job_id : string;
  task_pdf_path : string
}.

(** *** process_pdf *)
Definition process_pdf (rq : Request) (file : UploadFile) (w : World)
    : result Accepted * World :=
  if negb (endswith ".pdf" (filename file)) then
    (Raise (HTTPException 400 "File must be a PDF"), w)
  else
    let job := uuid4 rq in
    let w := set_job job (Status (mkStatus "Uploading file..." 0 None)) w in
    let pdf_path := os_path_join (upload_dir rq) (filename file) in
    if open_wb rq pdf_path then
      (Ok (mkAccepted job job pdf_path), write_file pdf_path w)
    else (Raise (Failure "open"), w).

(** The request as the framework runs it: the handler, and after its
    answer the background task it added. *)
Definition upload_request (env : Env) (rq : Request) (file : UploadFile)
    (w : World) : result Accepted * World :=
  match process_pdf rq file w with
  | (Ok accepted, w1) =>
      (Ok accepted,
       process_pdf_background env (task_job_id accepted) (task_pdf_path accepted) w1)
  | (Raise e, w1) => (Raise e, w1)
  end.

(** *** get_processing_status *)
Definition get_processing_status (w : World) (job : string) : result entry :=
  match processing_jobs w !! job with
  | None => Raise (HTTPException 404 "Job not found")
  | Some e => Ok e
  end.

(** *** synthesize_text *)

(** [temp_name] is the name of the file that
    [NamedTemporaryFile(delete=False, suffix=".wav")] creates; the
    parameter [speed] is accepted by the endpoint and never read.  When
    the model fails, [raised] is the [str(e)] of its exception, which the
    handler puts into the detail of the answer. *)
Definition synthesize_text (env : Env) (temp_name raised : string) (txt : string)
    (w : World) : result FileResponse * World :=
  match tts_model env with
  | None => (Raise (HTTPException 500 "TTS model not available"), w)
  | Some tts_to_file =>
      let w := write_file temp_name w in
      let cleaned_text := clean_text_for_tts txt in
      if tts_to_file cleaned_text temp_name then
        (Ok (mkFileResponse temp_name "audio/wav" "synthesized_audio.wav"), w)
      else
        (Raise (HTTPException 500 ("Error generating audio: " +:+ raised)), w)
  end.

End Service.

Import Service.

(** ** Vocabulary of the further statements *)

(** The trace of the writes of [process_pdf_background], in program
    order: the world after every assignment to a registry before the
    synthesis loop, after every turn of the loop, and after the two
    assignments behind it.  The function awaits only inside the loop, so
    most of these worlds are passed through without another request being
    served in them. *)
Definition job_timeline (env : Env) (job pdf_path : string) (w : World)
    : list World :=
  let w20 := set_job job (Status (mkStatus "Extracting text from PDF..." 20 None)) w in
  match extract_text_from_pdf env pdf_path with
  | Raise e =>
      [ w20;
        set_job job
          (Status (mkStatus ("Error: " +:+ str_of_exn e) 0 (Some (str_of_exn e)))) w20 ]
  | Ok segs =>
      let w40 := set_job job
                   (Status (mkStatus "Analyzing content for voice processing..." 40 None))
                   w20 in
      let processed := process_text_segments segs in
      let w60 := set_job job (Status (mkStatus "Generating AI voice..." 60 None)) w40 in
      let entered := set_audio job [] w60 in
      let turns :=
        map (fun k => synthesis_loop env job (mkdtemp env) processed k entered)
            (seq 1 (length processed)) in
      let looped :=
        synthesis_loop env job (mkdtemp env) processed (length processed) entered in
      let w100 := set_job job (Status (mkStatus "Finalizing..." 100 None)) looped in
      [w20; w40; w60; entered] ++ turns
        ++ [ w100;
             set_job job
               (Result (mkResult job processed (first_total_pages segs) "completed"))
               w100 ]
  end.

(** The progress values that the statuses of the job show along a list of
    worlds; a world in which the entry is a result shows none. *)
Definition shown_progress (job : string) (worlds : list World) : list Z :=
  omap (fun w => status_progress (processing_jobs w !! job)) worlds.

(** A page from which nothing can be extracted. *)
Definition blank_page (extracted : option string) : bool :=
  match extracted with
  | Some page_text => all_space page_text
  | None => true
  end.

(** The segment that [process_text_segments] makes of one raw segment. *)
Definition processed_of (raw : RawSegment) : TextSegment :=
  mkSegment (clean_text_for_tts (raw_text raw)) (raw_page raw)
    (ref_has_figure_reference (detect_figure_references (raw_text raw)))
    (ref_figure_references (detect_figure_references (raw_text raw))).

(** The index written in a segment file name: the decimal number between
    [segment_] and [.wav]. *)
Definition index_of_file_name (name : string) : option nat :=
  Nat.of_uint <$>
    NilEmpty.uint_of_string
      (str_take (String.length name - 12) (str_drop 8 name)).

(** A model that renders every segment. *)
Definition sound_env : Env :=
  mkEnv (fun _ => Ok [Some sample_page]) (Some (fun _ _ => true)) "/tmp/audio".

Definition unreadable_env : Env :=
  mkEnv (fun _ => Raise (Failure "No /Root object")) (Some (fun _ _ => true))
        "/tmp/audio".

Definition sample_request : Request :=
  mkRequest "job" "/tmp/upload" (fun _ => true).

(** The progress shown after the first [k] turns of the synthesis loop:
    the one written for the last segment rendered so far, or the 60 of the
    entry into the stage. *)
Definition turn_progress (env : Env) (audio_dir : string)
    (processed : list TextSegment) (k : nat) : Z :=
  match last (rendered_indices env audio_dir processed k) with
  | Some i => segment_progress i (length processed)
  | None => 60%Z
  end.

(** A document of two pages: the first holds white space only, the
    second a paragraph of 50 characters and one of 51. *)
Definition floor_env : Env :=
  mkEnv (fun _ => Ok [Some (String "009" "  ");
                      Some (fifty +:+ paragraph_separator +:+ " x" +:+ fifty +:+ " ")])
        None "/tmp/audio".



(** * Verification *)
(** ** Strings *)

Ltac case_if :=
  match goal with
  | |- context [if ?b then _ else _] => destruct b eqn:?
  end.

Lemma str_app_cons (c : ascii) (a b : string) :
  String c a +:+ b = String c (a +:+ b).
Proof. reflexivity. Qed.

Lemma str_app_nil_l (b : string) : "" +:+ b = b.
Proof. reflexivity. Qed.

Lemma str_app_nil_r (s : string) : s +:+ "" = s.
Proof.
  induction s as [|c s IH]; [reflexivity|].
  now rewrite str_app_cons, IH.
Qed.

Lemma str_app_assoc (a b c : string) : (a +:+ b) +:+ c = a +:+ (b +:+ c).
Proof.
  induction a as [|x a IH]; [reflexivity|].
  now rewrite !str_app_cons, IH.
Qed.

Lemma str_length_app (a b : string) :
  String.length (a +:+ b) = String.length a + String.length b.
Proof.
  induction a as [|x a IH]; [reflexivity|].
  rewrite str_app_cons. simpl. now rewrite IH.
Qed.

Lemma all_space_app (a b : string) :
  all_space (a +:+ b) = all_space a && all_space b.
Proof.
  induction a as [|x a IH]; [reflexivity|].
  rewrite str_app_cons. simpl. rewrite IH. now rewrite andb_assoc.
Qed.

(** *** strip *)

Lemma lstrip_all_space (s : string) : all_space s = true -> lstrip s = "".
Proof.
  induction s as [|c s IH]; simpl; [reflexivity|].
  intros [Hc Hs]%andb_true_iff. rewrite Hc. auto.
Qed.

Lemma lstrip_head (s : string) (c : ascii) (r : string) :
  lstrip s = String c r -> isspace c = false.
Proof.
  induction s as [|x s IH]; simpl; [discriminate|].
  destruct (isspace x) eqn:Hx; [exact IH|].
  intros [= -> _]. exact Hx.
Qed.

Lemma lstrip_empty (s : string) : lstrip s = "" -> all_space s = true.
Proof.
  induction s as [|x s IH]; simpl; [reflexivity|].
  destruct (isspace x); [exact IH | discriminate].
Qed.

Lemma rstrip_empty (s : string) : rstrip s = "" -> all_space s = true.
Proof.
  induction s as [|x s IH]; simpl; [reflexivity|].
  destruct (rstrip s) eqn:Hr; [|discriminate].
  destruct (isspace x); [intros _; now apply IH | discriminate].
Qed.

Lemma rstrip_all_space (s : string) : all_space s = true -> rstrip s = "".
Proof.
  induction s as [|x s IH]; simpl; [reflexivity|].
  intros [Hx Hs]%andb_true_iff. rewrite (IH Hs), Hx. reflexivity.
Qed.

Lemma strip_empty_iff (s : string) : strip s = "" <-> all_space s = true.
Proof.
  unfold strip. split.
  - intros H%rstrip_empty. destruct (lstrip s) as [|c r] eqn:Hl.
    + now apply lstrip_empty.
    + apply lstrip_head in Hl. simpl in H. rewrite Hl in H. discriminate.
  - intros H. now rewrite (lstrip_all_space s H).
Qed.

Lemma truthy_false (s : string) : truthy s = false <-> s = "".
Proof. destruct s; simpl; split; congruence. Qed.

(** *** split *)

Lemma split_aux_all_space (sep s : string) (skip : nat) :
  all_space s = true ->
  Forall (fun piece => all_space piece = true) (split_aux sep s skip).
Proof.
  revert skip. induction s as [|c s IH]; simpl; intros skip H.
  - repeat constructor.
  - apply andb_true_iff in H as [Hc Hs].
    destruct skip as [|k]; [|now apply IH].
    case_if.
    + constructor; [reflexivity | now apply IH].
    + specialize (IH 0 Hs). destruct (split_aux sep s 0) as [|piece rest].
      * repeat constructor. simpl. now rewrite Hc.
      * inversion IH; subst. constructor; [|assumption].
        simpl. rewrite Hc. assumption.
Qed.

(** ** The PDF segmenter *)

Lemma paragraphs_all_space (page_text : string) :
  all_space page_text = true -> paragraphs page_text = [].
Proof.
  intros H. unfold paragraphs, split.
  pose proof (split_aux_all_space paragraph_separator page_text 0 H) as HF.
  induction HF as [|piece rest Hp _ IH]; [reflexivity|].
  rewrite filter_cons. destruct (decide _) as [Ht|_]; [|exact IH].
  apply strip_empty_iff in Hp. rewrite Hp in Ht. discriminate.
Qed.

Lemma filter_loop {A B} (keep : A -> bool) (make : A -> B) (l : list A) (acc : list B) :
  fold_left (fun out x => if keep x then out ++ [make x] else out) l acc
  = acc ++ map make (filter (fun x => keep x = true) l).
Proof.
  revert acc. induction l as [|x l IH]; intros acc; simpl.
  - now rewrite app_nil_r.
  - rewrite IH, filter_cons. destruct (keep x) eqn:Hk.
    + rewrite decide_True by reflexivity. simpl. now rewrite <- app_assoc.
    + rewrite decide_False by discriminate. reflexivity.
Qed.

Lemma page_segments_spec (total page_num : nat) (page_text : string) :
  page_segments total page_num (Some page_text)
  = map (fun p => mkRaw p page_num total)
        (filter (fun p => (50 <? String.length p) = true) (paragraphs page_text)).
Proof.
  unfold page_segments.
  destruct (truthy page_text && truthy (strip page_text)) eqn:Hg.
  - now rewrite filter_loop.
  - assert (all_space page_text = true) as Hs.
    { apply andb_false_iff in Hg as [Hg|Hg]; apply truthy_false in Hg.
      - now subst.
      - now apply strip_empty_iff. }
    now rewrite (paragraphs_all_space _ Hs).
Qed.

Lemma segments_of_pages_spec (pages : list (option string)) :
  segments_of_pages pages
  = concat (map (fun '(page_num, extracted) =>
                   page_segments (length pages) page_num extracted)
                (enumerate 1 pages)).
Proof.
  unfold segments_of_pages.
  generalize (enumerate 1 pages) as items, (length pages) as total.
  intros items total.
  rewrite <- (app_nil_l (concat _)). generalize (@nil RawSegment) as acc.
  induction items as [|[n e] items IH]; intros acc; simpl.
  - now rewrite app_nil_r.
  - now rewrite IH, app_assoc.
Qed.

(** The segments of a document are those of its pages. *)
Lemma enumerated_pages_member (total : nat) (l : list (option string))
    (start : nat) (seg : RawSegment) :
  seg ∈ concat (map (fun '(page_num, extracted) =>
                       page_segments total page_num extracted)
                    (enumerate start l)) <->
  exists i extracted,
    l !! i = Some extracted /\ seg ∈ page_segments total (start + i) extracted.
Proof.
  revert start. induction l as [|e l IH]; intros start.
  - simpl. split; [intros H; inversion H | intros (i & x & H & _); now destruct i].
  - cbn [enumerate map concat]. rewrite elem_of_app, IH. split.
    + intros [Hhere|(i & x & Hi & Hin)].
      * exists 0, e. rewrite Nat.add_0_r. auto.
      * exists (S i), x. rewrite <- Nat.add_succ_comm. auto.
    + intros (i & x & Hi & Hin). destruct i as [|i].
      * left. simpl in Hi. injection Hi as <-. now rewrite Nat.add_0_r in Hin.
      * right. exists i, x. rewrite Nat.add_succ_comm. auto.
Qed.

Lemma segments_of_pages_member (pages : list (option string)) (seg : RawSegment) :
  seg ∈ segments_of_pages pages <->
  exists i extracted,
    pages !! i = Some extracted /\
    seg ∈ page_segments (length pages) (S i) extracted.
Proof. rewrite segments_of_pages_spec. apply enumerated_pages_member. Qed.

Lemma page_segments_page (total page_num : nat) (extracted : option string)
    (seg : RawSegment) :
  seg ∈ page_segments total page_num extracted ->
  raw_page seg = page_num /\ raw_total_pages seg = total /\
  exists page_text,
    extracted = Some page_text /\ raw_text seg ∈ paragraphs page_text /\
    50 < String.length (raw_text seg).
Proof.
  destruct extracted as [page_text|]; [|intros H; inversion H].
  rewrite page_segments_spec. intros (p & -> & Hp)%list_elem_of_fmap.
  apply list_elem_of_filter in Hp as [Hlen Hp]. apply Nat.ltb_lt in Hlen.
  simpl. split; [reflexivity|]. split; [reflexivity|]. exists page_text. auto.
Qed.

(** C5.  In the segments that [extract_text_from_pdf] returns for a
    readable document, a page whose extracted text is missing, empty or
    made of white space only has no segment; a trimmed paragraph of a page
    is among the segments, stamped with the number of the page and the
    page count, exactly when it has more than 50 characters (so one of 50
    or fewer is dropped and one of 51 is kept); and every segment of the
    page is such a paragraph. *)
Theorem segmenter_paragraph_floor (env : Env) (pdf_path : string)
    (pages : list (option string)) (i : nat) (extracted : option string) :
  pdf_pages env pdf_path = Ok pages ->
  pages !! i = Some extracted ->
  exists segs,
    extract_text_from_pdf env pdf_path = Ok segs /\
    segs = segments_of_pages pages /\
    (blank_page extracted = true ->
     page_segments (length pages) (S i) extracted = [] /\
     forall seg, seg ∈ segs -> raw_page seg <> S i) /\
    (forall page_text p,
       extracted = Some page_text -> p ∈ paragraphs page_text ->
       (String.length p <= 50 -> mkRaw p (S i) (length pages) ∉ segs) /\
       (51 <= String.length p -> mkRaw p (S i) (length pages) ∈ segs)) /\
    (forall seg, seg ∈ segs -> raw_page seg = S i ->
       raw_total_pages seg = length pages /\
       exists page_text,
         extracted = Some page_text /\ raw_text seg ∈ paragraphs page_text /\
         50 < String.length (raw_text seg)).
Proof.
  intros Hp Hi. exists (segments_of_pages pages).
  unfold extract_text_from_pdf. rewrite Hp.
  split; [reflexivity|]. split; [reflexivity|].
  assert (forall seg, seg ∈ segments_of_pages pages -> raw_page seg = S i ->
            seg ∈ page_segments (length pages) (S i) extracted) as Hown.
  { intros seg (j & e & Hj & Hin)%segments_of_pages_member Hpage.
    destruct (page_segments_page _ _ _ _ Hin) as (Hpg & _).
    assert (j = i) as -> by lia. rewrite Hi in Hj. now injection Hj as <-. }
  assert (blank_page extracted = true ->
          page_segments (length pages) (S i) extracted = []) as Hblank.
  { destruct extracted as [page_text|]; [|reflexivity]. cbn [blank_page]. intros Hb.
    now rewrite page_segments_spec, (paragraphs_all_space _ Hb). }
  split; [|split].
  - intros Hb. split; [now apply Hblank|].
    intros seg Hin Hpage. specialize (Hown seg Hin Hpage).
    rewrite (Hblank Hb) in Hown. inversion Hown.
  - intros page_text p -> Hpar. split.
    + intros Hlen Hin. specialize (Hown _ Hin eq_refl).
      destruct (page_segments_page _ _ _ _ Hown) as (_ & _ & t & _ & _ & Hlong).
      simpl in Hlong. lia.
    + intros Hlen. apply segments_of_pages_member. exists i, (Some page_text).
      split; [exact Hi|]. rewrite page_segments_spec.
      apply list_elem_of_fmap. exists p. split; [reflexivity|].
      apply list_elem_of_filter. split; [|exact Hpar]. apply Nat.ltb_lt. lia.
  - intros seg Hin Hpage. specialize (Hown seg Hin Hpage).
    destruct (page_segments_page _ _ _ _ Hown) as (_ & Ht & Hrest). auto.
Qed.

Lemma segmenter_paragraph_floor_witness :
  exists segs,
    extract_text_from_pdf floor_env "paper.pdf" = Ok segs /\
    segs = [mkRaw ("x" +:+ fifty) 2 2] /\
    (forall seg, seg ∈ segs -> raw_page seg <> 1) /\
    (mkRaw fifty 2 2 ∉ segs) /\
    (mkRaw ("x" +:+ fifty) 2 2 ∈ segs).
Proof.
  destruct (segmenter_paragraph_floor floor_env "paper.pdf"
              [Some (String "009" "  ");
               Some (fifty +:+ paragraph_separator +:+ " x" +:+ fifty +:+ " ")]
              0 (Some (String "009" "  ")) eq_refl eq_refl)
    as (segs & Hx & Hsegs & Hblank & _).
  destruct (segmenter_paragraph_floor floor_env "paper.pdf"
              [Some (String "009" "  ");
               Some (fifty +:+ paragraph_separator +:+ " x" +:+ fifty +:+ " ")]
              1 (Some (fifty +:+ paragraph_separator +:+ " x" +:+ fifty +:+ " "))
              eq_refl eq_refl)
    as (segs' & Hx' & _ & _ & Hfloor & _).
  rewrite Hx in Hx'. injection Hx' as <-.
  exists segs. split; [exact Hx|]. split; [rewrite Hsegs; reflexivity|].
  split; [apply Hblank; reflexivity|].
  split.
  - apply (Hfloor _ fifty eq_refl).
    + apply list_elem_of_In. vm_compute. tauto.
    + vm_compute. lia.
  - apply (Hfloor _ ("x" +:+ fifty) eq_refl).
    + apply list_elem_of_In. vm_compute. tauto.
    + vm_compute. lia.
Defined.

(** ** The regular expression engine *)

Lemma match_plus_le (cls : ascii -> bool) (k : string -> option nat) (s : string) (n : nat) :
  (forall t m, k t = Some m -> m <= String.length t) ->
  match_plus cls k s = Some n -> 0 < n <= String.length s.
Proof.
  intros Hk. revert n. induction s as [|c s IH]; simpl; intros n; [discriminate|].
  destruct (cls c); [|discriminate].
  destruct (match_plus cls k s) as [m|] eqn:Hm.
  - intros [= <-]. specialize (IH m eq_refl). lia.
  - destruct (k s) as [m|] eqn:Hks; simpl; [|discriminate].
    intros [= <-]. apply Hk in Hks. lia.
Qed.

Lemma match_here_le (icase : bool) (p : pattern) (s : string) (n : nat) :
  match_here icase p s = Some n -> n <= String.length s.
Proof.
  revert s n. induction p as [|[a|a] p IH]; simpl; intros s n.
  - intros [= <-]. lia.
  - destruct s as [|c s]; [discriminate|].
    destruct (atom_accepts icase a c); [|discriminate].
    destruct (match_here icase p s) as [m|] eqn:Hm; simpl; [|discriminate].
    intros [= <-]. apply IH in Hm. simpl. lia.
  - intros H. eapply match_plus_le in H; [lia|]. intros t m. apply IH.
Qed.

(** A pattern that has an item never matches the empty string. *)
Lemma match_here_nonempty (icase : bool) (p : pattern) (s : string) :
  p <> [] -> match_here icase p s <> Some 0.
Proof.
  destruct p as [|[a|a] p]; [congruence|intros _ ..]; simpl.
  - destruct s as [|c s]; [discriminate|].
    destruct (atom_accepts icase a c); [|discriminate].
    destruct (match_here icase p s); discriminate.
  - intros H. eapply match_plus_le in H; [lia|].
    intros t m. apply match_here_le.
Qed.

Lemma ascending_weaken (a b : nat) (spans : list (nat * nat)) :
  a <= b -> ascending b spans -> ascending a spans.
Proof.
  destruct spans as [|[i n] rest]; simpl; [auto|].
  intros Hab (H1 & H2 & H3). repeat split; [lia | lia | exact H3].
Qed.

Lemma finditer_aux_bounds (icase : bool) (p : pattern) (s : string) (pos skip : nat) :
  ascending (pos + skip) (finditer_aux icase p s pos skip) /\
  Forall (fun span => pos + skip <= fst span /\
                      fst span + snd span <= pos + String.length s)
         (finditer_aux icase p s pos skip).
Proof.
  revert pos skip. induction s as [|c s IH]; intros pos skip.
  - simpl. split; [exact I | constructor].
  - cbn [finditer_aux]. destruct skip as [|k].
    + assert (ascending (pos + 0) (finditer_aux icase p s (S pos) 0) /\
              Forall (fun span => pos + 0 <= fst span /\
                        fst span + snd span <= pos + String.length (String c s))
                     (finditer_aux icase p s (S pos) 0)) as Hnone.
      { destruct (IH (S pos) 0) as [Ha Hf]. split.
        - eapply ascending_weaken; [|exact Ha]. lia.
        - eapply Forall_impl; [exact Hf|]. simpl. intros [i m]; simpl. lia. }
      destruct (match_here icase p (String c s)) as [[|n]|] eqn:Hm; try exact Hnone.
      destruct (IH (S pos) n) as [Ha Hf]. apply match_here_le in Hm. simpl in Hm.
      split.
      * simpl. repeat split; try lia.
        replace (pos + S n) with (S pos + n) by lia. exact Ha.
      * constructor; [simpl; lia|].
        eapply Forall_impl; [exact Hf|]. simpl. intros [i m]; simpl. lia.
    + destruct (IH (S pos) k) as [Ha Hf]. split.
      * replace (pos + S k) with (S pos + k) by lia. exact Ha.
      * eapply Forall_impl; [exact Hf|]. simpl. intros [i m]; simpl. lia.
Qed.

Lemma map_ext_Forall {A B} (f g : A -> B) (l : list A) :
  Forall (fun x => f x = g x) l -> map f l = map g l.
Proof. induction 1 as [|x l Hx _ IH]; simpl; [reflexivity | now rewrite Hx, IH]. Qed.

Lemma findall_aux_slices (icase : bool) (p : pattern) (s : string) (pos skip : nat) :
  findall_aux icase p s skip
  = map (fun span => slice (fst span - pos) (snd span) s)
        (finditer_aux icase p s pos skip).
Proof.
  revert pos skip. induction s as [|c s IH]; intros pos skip; [reflexivity|].
  assert (forall k,
    map (fun span => slice (fst span - S pos) (snd span) s)
        (finditer_aux icase p s (S pos) k)
    = map (fun span => slice (fst span - pos) (snd span) (String c s))
        (finditer_aux icase p s (S pos) k)) as Hshift.
  { intros k. apply map_ext_Forall.
    destruct (finditer_aux_bounds icase p s (S pos) k) as [_ Hf].
    eapply Forall_impl; [exact Hf|]. intros [i n]; simpl. intros [Hi _].
    replace (i - pos) with (S (i - S pos)) by lia. reflexivity. }
  cbn [finditer_aux findall_aux]. destruct skip as [|k].
  - destruct (match_here icase p (String c s)) as [[|n]|] eqn:Hm.
    + now rewrite (IH (S pos)), Hshift.
    + cbn [map fst snd]. rewrite (IH (S pos)), Hshift.
      now rewrite Nat.sub_diag.
    + now rewrite (IH (S pos)), Hshift.
  - now rewrite (IH (S pos)), Hshift.
Qed.

Lemma finditer_aux_matches (icase : bool) (p : pattern) (s : string) (pos skip : nat) :
  Forall (fun span =>
            match_here icase p (str_drop (fst span - pos) s) = Some (snd span))
         (finditer_aux icase p s pos skip).
Proof.
  revert pos skip. induction s as [|c s IH]; intros pos skip; [constructor|].
  assert (forall k,
    Forall (fun span =>
              match_here icase p (str_drop (fst span - pos) (String c s))
              = Some (snd span))
           (finditer_aux icase p s (S pos) k)) as Hshift.
  { intros k. specialize (IH (S pos) k).
    destruct (finditer_aux_bounds icase p s (S pos) k) as [_ Hf].
    rewrite Forall_forall in *. intros [i n] Hin.
    specialize (IH _ Hin). specialize (Hf _ Hin). simpl in *.
    replace (i - pos) with (S (i - S pos)) by lia. exact IH. }
  cbn [finditer_aux]. destruct skip as [|k]; [|apply Hshift].
  destruct (match_here icase p (String c s)) as [[|n]|] eqn:Hm; try apply Hshift.
  constructor; [|apply Hshift].
  cbn [fst snd]. now rewrite Nat.sub_diag.
Qed.

Lemma finditer_aux_complete (icase : bool) (p : pattern) (s : string)
    (pos skip j m : nat) :
  skip <= j ->
  match_here icase p (str_drop j s) = Some (S m) ->
  exists span, span ∈ finditer_aux icase p s pos skip /\
               fst span <= pos + j < fst span + snd span.
Proof.
  revert pos skip j. induction s as [|c s IH]; intros pos skip j Hj Hm.
  - apply match_here_le in Hm. destruct j; simpl in Hm; lia.
  - cbn [finditer_aux]. destruct skip as [|k].
    + destruct j as [|j].
      * simpl in Hm. rewrite Hm. exists (pos, S m). split; [left|simpl; lia].
      * simpl in Hm.
        destruct (match_here icase p (String c s)) as [[|n]|] eqn:Hc.
        -- destruct (IH (S pos) 0 j ltac:(lia) Hm) as (span & Hin & Hb).
           exists span. split; [exact Hin | lia].
        -- destruct (le_lt_dec n j) as [Hnj|Hnj].
           ++ destruct (IH (S pos) n j Hnj Hm) as (span & Hin & Hb).
              exists span. split; [now right | lia].
           ++ exists (pos, S n). split; [left | simpl; lia].
        -- destruct (IH (S pos) 0 j ltac:(lia) Hm) as (span & Hin & Hb).
           exists span. split; [exact Hin | lia].
    + destruct j as [|j]; [lia|]. simpl in Hm.
      destruct (IH (S pos) k j ltac:(lia) Hm) as (span & Hin & Hb).
      exists span. split; [exact Hin | lia].
Qed.

(** *** Case folding *)

Lemma lower_lower (c : ascii) : lower (lower c) = lower c.
Proof. destruct c as [[] [] [] [] [] [] [] []]; reflexivity. Qed.

Lemma upper_lower (c : ascii) : upper (lower c) = upper c.
Proof. destruct c as [[] [] [] [] [] [] [] []]; reflexivity. Qed.

Lemma isspace_lower (c : ascii) : isspace (lower c) = isspace c.
Proof. destruct c as [[] [] [] [] [] [] [] []]; reflexivity. Qed.

Lemma isdigit_lower (c : ascii) : isdigit (lower c) = isdigit c.
Proof. destruct c as [[] [] [] [] [] [] [] []]; reflexivity. Qed.

Lemma atom_accepts_lower (a : atom) (c : ascii) :
  atom_accepts true a (lower c) = atom_accepts true a c.
Proof.
  destruct a; simpl.
  - now rewrite lower_lower.
  - now rewrite lower_lower, upper_lower.
  - now rewrite lower_lower, upper_lower.
  - apply isspace_lower.
  - apply isdigit_lower.
Qed.

Lemma match_plus_lower (cls : ascii -> bool) (k : string -> option nat) (s : string) :
  (forall c, cls (lower c) = cls c) ->
  (forall t, k (lower_str t) = k t) ->
  match_plus cls k (lower_str s) = match_plus cls k s.
Proof.
  intros Hcls Hk. induction s as [|c s IH]; simpl; [reflexivity|].
  now rewrite Hcls, IH, Hk.
Qed.

Lemma match_here_lower (p : pattern) (s : string) :
  match_here true p (lower_str s) = match_here true p s.
Proof.
  revert s. induction p as [|[a|a] p IH]; intros s; simpl; [reflexivity| |].
  - destruct s as [|c s]; simpl; [reflexivity|].
    now rewrite atom_accepts_lower, IH.
  - apply match_plus_lower; [apply atom_accepts_lower | apply IH].
Qed.

Lemma finditer_aux_lower (p : pattern) (s : string) (pos skip : nat) :
  finditer_aux true p (lower_str s) pos skip = finditer_aux true p s pos skip.
Proof.
  revert pos skip. induction s as [|c s IH]; intros pos skip; [reflexivity|].
  change (lower_str (String c s)) with (String (lower c) (lower_str s)).
  cbn [finditer_aux].
  change (String (lower c) (lower_str s)) with (lower_str (String c s)).
  rewrite match_here_lower.
  destruct skip as [|k]; [|apply IH].
  destruct (match_here true p (String c s)) as [[|n]|]; now rewrite IH.
Qed.

(** ** The figure-reference detector *)

Lemma extend_loop {A B} (body : A -> list B) (l : list A) (acc : list B) :
  fold_left (fun out x => out ++ body x) l acc = acc ++ concat (map body l).
Proof.
  revert acc. induction l as [|x l IH]; intros acc; simpl.
  - now rewrite app_nil_r.
  - now rewrite IH, app_assoc.
Qed.

(** C6.  The references are the matches of the first pattern, then those
    of the second, and so on through the nine patterns; the matches of one
    pattern are the substrings at its spans, which lie one behind the other
    from left to right, are matches, and cover every place where a match
    starts; letter case does not matter; the flag is set exactly when the
    list of references is not empty; and the example text gives
    [Figure 3], [Table 2]. *)
Theorem detector_pattern_then_position (txt : string) :
  let info := detect_figure_references txt in
  ref_figure_references info
    = concat (map (fun pat => findall true pat txt) figure_patterns) /\
  (ref_has_figure_reference info = true <-> ref_figure_references info <> []) /\
  (forall pat, pat ∈ figure_patterns ->
     findall true pat txt
       = map (fun span => slice (fst span) (snd span) txt) (finditer true pat txt) /\
     ascending 0 (finditer true pat txt) /\
     (forall span, span ∈ finditer true pat txt ->
        match_here true pat (str_drop (fst span) txt) = Some (snd span)) /\
     (forall j m, match_here true pat (str_drop j txt) = Some (S m) ->
        exists span, span ∈ finditer true pat txt /\
                     fst span <= j < fst span + snd span) /\
     (forall txt', lower_str txt' = lower_str txt ->
        finditer true pat txt' = finditer true pat txt)) /\
  detect_figure_references "Results are shown in Figure 3 and Table 2."
    = mkRefInfo true ["Figure 3"; "Table 2"].
Proof.
  cbn zeta. split; [|split; [|split]].
  - unfold detect_figure_references. cbn [ref_figure_references].
    now rewrite extend_loop.
  - unfold detect_figure_references. cbn [ref_figure_references ref_has_figure_reference].
    destruct (fold_left _ figure_patterns []) as [|r rs]; simpl.
    + split; [discriminate | congruence].
    + split; [discriminate | reflexivity].
  - intros pat _. split; [|split; [|split; [|split]]].
    + unfold findall, finditer. rewrite (findall_aux_slices true pat txt 0 0).
      apply map_ext_Forall, Forall_forall. intros [i n] _. simpl.
      now rewrite Nat.sub_0_r.
    + apply (finditer_aux_bounds true pat txt 0 0).
    + intros span Hin.
      pose proof (finditer_aux_matches true pat txt 0 0) as Hf.
      rewrite Forall_forall in Hf. specialize (Hf _ Hin).
      now rewrite Nat.sub_0_r in Hf.
    + intros j m Hm.
      destruct (finditer_aux_complete true pat txt 0 0 j m ltac:(lia) Hm)
        as (span & Hin & Hb).
      exists span. split; [exact Hin | simpl in Hb; lia].
    + intros txt' Heq. unfold finditer.
      now rewrite <- (finditer_aux_lower pat txt'), Heq, finditer_aux_lower.
  - reflexivity.
Qed.

Lemma detector_pattern_then_position_witness :
  finditer true (word_space_number "Ff" "igure") "see FIGURE 2 and Figure 10"
  = finditer true (word_space_number "Ff" "igure") "SEE figure 2 AND FIGURE 10".
Proof.
  destruct (detector_pattern_then_position "SEE figure 2 AND FIGURE 10")
    as (_ & _ & H & _).
  destruct (H (word_space_number "Ff" "igure")) as (_ & _ & _ & _ & Hfold).
  - left.
  - apply Hfold. reflexivity.
Defined.

(** ** The text cleaner *)

(** *** The three substitutions, read off character by character *)

Lemma match_space_run (k : string -> option nat) (s : string) :
  (forall t, k t = Some 0) ->
  match_plus (atom_accepts false Space) k s
  = match leading_space s with 0 => None | n => Some n end.
Proof.
  intros Hk. induction s as [|c s IH]; simpl; [reflexivity|].
  destruct (isspace c); [|reflexivity].
  rewrite IH, Hk. destruct (leading_space s); reflexivity.
Qed.

Lemma match_whitespace_run (s : string) :
  match_here false whitespace_run s
  = match leading_space s with 0 => None | n => Some n end.
Proof. apply match_space_run. reflexivity. Qed.

Lemma sub_whitespace_run (s : string) :
  sub_aux false whitespace_run (fun _ => " ") s 0 = collapse_from false s /\
  sub_aux false whitespace_run (fun _ => " ") s (leading_space s) = collapse_from true s.
Proof.
  induction s as [|c s [IH0 IH1]]; [split; reflexivity|].
  assert (sub_aux false whitespace_run (fun _ => " ") (String c s) 0
          = collapse_from false (String c s)) as H0.
  { cbn [sub_aux]. rewrite match_whitespace_run. simpl.
    destruct (isspace c).
    - now rewrite IH1.
    - now rewrite IH0. }
  split; [exact H0|].
  simpl leading_space. destruct (isspace c) eqn:Hc.
  - cbn [sub_aux]. rewrite IH1. simpl. now rewrite Hc.
  - rewrite H0. simpl. now rewrite Hc.
Qed.

Lemma collapse_whitespace_spec (s : string) :
  collapse_whitespace s = collapse_from false s.
Proof. apply sub_whitespace_run. Qed.

Lemma capital_not_space (c : ascii) : is_AZ c = true -> isspace c = false.
Proof. destruct c as [[] [] [] [] [] [] [] []]; (reflexivity || discriminate). Qed.

Lemma match_mark_capital (q : ascii) (s : string) :
  match_here false [One (Lit q); One (Range "A" "Z")] s
  = match s with
    | String c s' => if Ascii.eqb c q && starts_with_capital s' then Some 2 else None
    | "" => None
    end.
Proof.
  destruct s as [|c s]; [reflexivity|]. simpl.
  destruct (Ascii.eqb c q); [|reflexivity]. simpl.
  destruct s as [|d s]; [reflexivity|]. simpl.
  change (in_range "A" "Z" d) with (is_AZ d).
  now destruct (is_AZ d).
Qed.

Lemma sub_mark_capital (q : ascii) (s : string) :
  is_AZ q = false ->
  let repl := fun m => String q " " +:+ group1 m in
  sub_aux false [One (Lit q); One (Range "A" "Z")] repl s 0 = pause_after q s /\
  sub_aux false [One (Lit q); One (Range "A" "Z")] repl s 1
    = pause_after q (str_drop 1 s).
Proof.
  intros Hq repl. induction s as [|c s [IH0 IH1]]; [split; reflexivity|].
  split; [|exact IH0].
  cbn [sub_aux]. rewrite match_mark_capital. cbn [pause_after].
  destruct (Ascii.eqb c q && starts_with_capital s) eqn:Hm.
  - rewrite IH1. destruct s as [|d s]; [now rewrite andb_false_r in Hm|].
    apply andb_true_iff in Hm as [Hc Hd]. simpl in Hd.
    apply Ascii.eqb_eq in Hc. subst c.
    unfold repl, group1. simpl.
    assert (Ascii.eqb d q = false) as Hdq.
    { apply Ascii.eqb_neq. intros ->. congruence. }
    rewrite Hdq. reflexivity.
  - now rewrite IH0.
Qed.

Lemma pause_after_dot_spec (s : string) : pause_after_dot s = pause_after "." s.
Proof. apply (sub_mark_capital "." s). reflexivity. Qed.

Lemma pause_after_comma_spec (s : string) : pause_after_comma s = pause_after "," s.
Proof. apply (sub_mark_capital "," s). reflexivity. Qed.

Lemma insert_pauses_spec (s : string) :
  insert_pauses s = pause_after "," (pause_after "." (collapse_from false s)).
Proof.
  unfold insert_pauses.
  now rewrite pause_after_comma_spec, pause_after_dot_spec, collapse_whitespace_spec.
Qed.

(** *** Where a pause is inserted *)





(** *** Chains of neighbours *)

Lemma chain_cons (R : ascii -> ascii -> bool) (a c : ascii) (s : string) (b : ascii) :
  chain R a (String c s) b = R a c && chain R c s b.
Proof. reflexivity. Qed.

Lemma chain_app (R : ascii -> ascii -> bool) (a : ascii) (s : string) (c : ascii)
    (t : string) (b : ascii) :
  chain R a (s +:+ String c t) b = chain R a s c && chain R c t b.
Proof.
  revert a. induction s as [|x s IH]; intros a; [reflexivity|].
  rewrite str_app_cons. simpl. now rewrite IH, andb_assoc.
Qed.

(** Dropping a prefix leaves a chain, from some left neighbour on. *)
Lemma chain_drop (R : ascii -> ascii -> bool) (n : nat) (a : ascii) (s : string) (b : ascii) :
  chain R a s b = true -> exists x, chain R x (str_drop n s) b = true.
Proof.
  revert a s. induction n as [|n IH]; intros a s H.
  - exists a. now destruct s.
  - destruct s as [|c s]; [now exists a|].
    simpl in H. apply andb_true_iff in H as [_ H]. simpl. eauto.
Qed.

Lemma replace_aux_chain (R : ascii -> ascii -> bool) (old new : string) (b : ascii) :
  absorbing R new ->
  forall s skip a,
    chain R a (str_drop skip s) b = true ->
    chain R a (replace_aux old new s skip) b = true.
Proof.
  intros Habs. induction s as [|c s IH]; intros skip a H.
  - now destruct skip.
  - cbn [replace_aux]. destruct skip as [|k]; [|apply IH; exact H].
    simpl in H. apply andb_true_iff in H as [Hac Hs].
    case_if.
    + destruct (chain_drop R (String.length old - 1) c s b Hs) as [x Hx].
      eapply Habs. apply (IH _ x). exact Hx.
    + simpl. rewrite Hac. simpl. apply IH. now destruct s.
Qed.

Lemma replace_chain (R : ascii -> ascii -> bool) (old new : string) (a b : ascii) (s : string) :
  old <> "" -> absorbing R new ->
  chain R a s b = true -> chain R a (replace old new s) b = true.
Proof.
  intros Hold Habs H. destruct old as [|o old]; [congruence|].
  unfold replace. apply replace_aux_chain; [exact Habs|]. now destruct s.
Qed.

Lemma chain_new_head (R : ascii -> ascii -> bool) (l x : ascii) (t : string) (b : ascii) :
  right_open R l -> chain R x t b = true -> chain R l t b = true.
Proof.
  intros Hl. destruct t as [|y t]; simpl.
  - apply Hl.
  - intros [Hxy Ht]%andb_true_iff. now rewrite (Hl _ _ Hxy).
Qed.

Lemma absorbing_intro (R : ascii -> ascii -> bool) (h : ascii) (mid : string) (l : ascii) :
  left_open R h -> right_open R l -> chain R h mid l = true ->
  absorbing R (String h (mid +:+ String l "")).
Proof.
  intros Hh Hl Hmid a x t b Ht.
  rewrite str_app_cons, str_app_assoc, str_app_cons, str_app_nil_l.
  simpl. rewrite Hh. simpl. rewrite chain_app, Hmid. simpl.
  eapply chain_new_head; eauto.
Qed.

(** The openness of a character that is neither white space, nor a
    capital, nor a punctuation mark. *)
Lemma single_space_left_open (h : ascii) :
  isspace h = false -> left_open single_space h.
Proof. intros H a. unfold single_space. now rewrite H. Qed.

Lemma single_space_right_open (l : ascii) :
  isspace l = false -> right_open single_space l.
Proof.
  intros H x y. unfold single_space. destruct (isspace y); [|reflexivity].
  intros [-> _]%andb_true_iff. now rewrite H.
Qed.

Lemma no_capital_left_open (q h : ascii) :
  is_AZ h = false -> left_open (no_capital_after q) h.
Proof. intros H a. unfold no_capital_after. now rewrite H, andb_false_r. Qed.

Lemma no_capital_right_open (q l : ascii) :
  Ascii.eqb l q = false -> right_open (no_capital_after q) l.
Proof. intros H x y _. unfold no_capital_after. now rewrite H. Qed.

Ltac absorb :=
  match goal with
  | |- absorbing ?R (String ?h ?rest) =>
      apply (absorbing_intro R h
               (str_take (String.length rest - 1) rest)
               match String.get (String.length rest - 1) rest with
               | Some l => l
               | None => h
               end)
  end.

Lemma single_space_admissible : admissible single_space.
Proof.
  repeat constructor; cbn [snd]; absorb;
    solve [ apply single_space_left_open; reflexivity
          | apply single_space_right_open; reflexivity
          | reflexivity ].
Qed.

Lemma no_capital_admissible (q : ascii) :
  q = "."%char \/ q = ","%char -> admissible (no_capital_after q).
Proof.
  intros Hq.
  repeat constructor; cbn [snd]; absorb;
    solve [ apply no_capital_left_open; reflexivity
          | apply no_capital_right_open; destruct Hq; subst q; reflexivity
          | destruct Hq; subst q; reflexivity ].
Qed.

Lemma expand_abbreviations_chain (R : ascii -> ascii -> bool) (a b : ascii) (s : string) :
  admissible R ->
  chain R a s b = true -> chain R a (expand_abbreviations s) b = true.
Proof.
  unfold admissible, expand_abbreviations.
  assert (Forall (fun pair => fst pair <> "") abbreviations) as Hne.
  { repeat constructor; discriminate. }
  revert Hne s. generalize abbreviations as l.
  induction l as [|[abbr new] l IH]; intros Hne s Hadm H; [exact H|].
  inversion Hne; subst. inversion Hadm; subst. simpl.
  apply IH; try assumption. apply replace_chain; assumption.
Qed.

(** *** The shape of the cleaned text *)

Lemma collapse_from_chain (b : ascii) (s : string) (a : ascii) (in_run : bool) :
  isspace b = false ->
  (in_run = false -> isspace a = false) ->
  chain single_space a (collapse_from in_run s) b = true.
Proof.
  intros Hb. revert a in_run. induction s as [|c s IH]; intros a in_run Ha.
  - simpl. unfold single_space. now rewrite Hb.
  - simpl. destruct (isspace c) eqn:Hc.
    + destruct in_run.
      * apply IH. discriminate.
      * simpl. rewrite IH by discriminate.
        unfold single_space. simpl. now rewrite Ha.
    + simpl. rewrite IH by auto. unfold single_space. now rewrite Hc.
Qed.

(** The left neighbour of a text that starts with the character [d] may
    be changed to any [x] that [d] may follow. *)
Lemma chain_head (R : ascii -> ascii -> bool) (a x d : ascii) (s : string) (b : ascii) :
  R x d = true -> chain R a (String d s) b = true -> chain R x (String d s) b = true.
Proof. simpl. intros -> [_ H]%andb_true_iff. exact H. Qed.

Lemma pause_after_keeps_chain (R : ascii -> ascii -> bool) (q : ascii) (b : ascii) :
  (forall c, R c " "%char = true) ->
  (forall d, is_AZ d = true -> R " "%char d = true) ->
  forall s a, chain R a s b = true -> chain R a (pause_after q s) b = true.
Proof.
  intros Hsp Hcap. induction s as [|c s IH]; intros a H; [exact H|].
  simpl in H. apply andb_true_iff in H as [Hac Hs]. cbn [pause_after].
  destruct (Ascii.eqb c q && starts_with_capital s) eqn:Hm.
  - destruct s as [|d s]; [now rewrite andb_false_r in Hm|].
    apply andb_true_iff in Hm as [_ Hd]. simpl in Hd.
    rewrite !chain_cons, Hac, Hsp. simpl.
    apply IH. eapply chain_head; [|exact Hs]. now apply Hcap.
  - rewrite chain_cons, Hac. simpl. now apply IH.
Qed.

Lemma pause_after_keeps_spaces (q b : ascii) (s : string) (a : ascii) :
  isspace q = false ->
  chain single_space a s b = true ->
  chain single_space a (pause_after q s) b = true.
Proof.
  intros Hq H. revert a H. induction s as [|c s IH]; intros a H; [exact H|].
  simpl in H. apply andb_true_iff in H as [Hac Hs]. cbn [pause_after].
  destruct (Ascii.eqb c q && starts_with_capital s) eqn:Hm.
  - destruct s as [|d s]; [now rewrite andb_false_r in Hm|].
    apply andb_true_iff in Hm as [Hc Hd]. simpl in Hd.
    apply Ascii.eqb_eq in Hc. subst c.
    rewrite !chain_cons, Hac. simpl.
    assert (single_space q " " = true) as ->.
    { unfold single_space. simpl. now rewrite Hq. }
    simpl. apply IH. eapply chain_head; [|exact Hs].
    unfold single_space. now rewrite (capital_not_space d Hd).
  - rewrite chain_cons, Hac. simpl. now apply IH.
Qed.

Lemma pause_after_keeps_no_capital (q' q b : ascii) (s : string) (a : ascii) :
  Ascii.eqb " " q' = false ->
  chain (no_capital_after q') a s b = true ->
  chain (no_capital_after q') a (pause_after q s) b = true.
Proof.
  intros Hq. apply pause_after_keeps_chain.
  - intros c. unfold no_capital_after. simpl. now rewrite andb_false_r.
  - intros d _. unfold no_capital_after. now rewrite Hq.
Qed.

Lemma pause_after_no_capital (q b : ascii) (s : string) (a : ascii) :
  Ascii.eqb " " q = false -> is_AZ b = false ->
  Ascii.eqb a q = false \/ starts_with_capital s = false ->
  chain (no_capital_after q) a (pause_after q s) b = true.
Proof.
  intros Hq Hb. revert a. induction s as [|c s IH]; intros a Ha.
  - simpl. unfold no_capital_after. now rewrite Hb, andb_false_r.
  - cbn [pause_after].
    assert (no_capital_after q a c = true) as Hac.
    { unfold no_capital_after. destruct Ha as [->| Hc]; [reflexivity|].
      simpl in Hc. now rewrite Hc, andb_false_r. }
    destruct (Ascii.eqb c q && starts_with_capital s) eqn:Hm.
    + rewrite !chain_cons, Hac. simpl.
      assert (no_capital_after q c " " = true) as ->.
      { unfold no_capital_after. simpl. now rewrite andb_false_r. }
      simpl. apply IH. now left.
    + rewrite chain_cons, Hac. simpl. apply IH.
      apply andb_false_iff in Hm. exact Hm.
Qed.

(** *** strip *)

Lemma chain_lstrip (R : ascii -> ascii -> bool) (a x b : ascii) (s : string) :
  (forall d, isspace d = false -> R x d = true) ->
  lstrip s <> "" ->
  chain R a s b = true -> chain R x (lstrip s) b = true.
Proof.
  intros Hx. revert a. induction s as [|c s IH]; intros a Hne H; [now simpl in Hne|].
  simpl in *. apply andb_true_iff in H as [Hac Hs].
  destruct (isspace c) eqn:Hc.
  - now apply (IH c).
  - simpl. now rewrite Hx, Hs.
Qed.

Lemma chain_rstrip (R : ascii -> ascii -> bool) (a b y : ascii) (s : string) :
  (forall d, isspace d = false -> R d y = true) ->
  rstrip s <> "" ->
  chain R a s b = true -> chain R a (rstrip s) y = true.
Proof.
  intros Hy. revert a. induction s as [|c s IH]; intros a Hne H; [now simpl in Hne|].
  simpl in *. apply andb_true_iff in H as [Hac Hs].
  destruct (rstrip s) as [|r rs] eqn:Hr.
  - destruct (isspace c) eqn:Hc; [congruence|].
    simpl. now rewrite Hac, Hy.
  - rewrite chain_cons, Hac. simpl. apply IH; [discriminate | exact Hs].
Qed.

Lemma strip_nonempty_lstrip (s : string) : strip s <> "" -> lstrip s <> "".
Proof. unfold strip. now destruct (lstrip s). Qed.

Lemma chain_strip (R : ascii -> ascii -> bool) (a b x y : ascii) (s : string) :
  (forall d, isspace d = false -> R x d = true) ->
  (forall d, isspace d = false -> R d y = true) ->
  strip s <> "" ->
  chain R a s b = true -> chain R x (strip s) y = true.
Proof.
  intros Hx Hy Hne H. unfold strip in *.
  eapply chain_rstrip; [exact Hy | exact Hne |].
  eapply (chain_lstrip R a x b); [exact Hx | now apply strip_nonempty_lstrip | exact H].
Qed.

Lemma insert_pauses_spaces (s : string) :
  chain single_space "a" (insert_pauses s) "a" = true.
Proof.
  rewrite insert_pauses_spec.
  do 2 (apply pause_after_keeps_spaces; [reflexivity|]).
  apply collapse_from_chain; reflexivity.
Qed.

Lemma insert_pauses_no_capital (q : ascii) (s : string) :
  q = "."%char \/ q = ","%char ->
  chain (no_capital_after q) "a" (insert_pauses s) "a" = true.
Proof.
  rewrite insert_pauses_spec. intros [->| ->].
  - apply pause_after_keeps_no_capital; [reflexivity|].
    apply pause_after_no_capital; [reflexivity | reflexivity | now left].
  - apply pause_after_no_capital; [reflexivity | reflexivity | now left].
Qed.

Lemma cleaned_spaces_normal (s : string) :
  spaces_normal (clean_text_for_tts s) = true.
Proof.
  unfold clean_text_for_tts, spaces_normal.
  destruct (strip (expand_abbreviations (insert_pauses s))) as [|c r] eqn:Hs;
    [reflexivity|].
  rewrite <- Hs.
  apply (chain_strip single_space "a" "a").
  - intros d Hd. unfold single_space. now rewrite Hd.
  - intros d Hd. unfold single_space. simpl. now rewrite Hd.
  - now rewrite Hs.
  - apply expand_abbreviations_chain; [apply single_space_admissible|].
    apply insert_pauses_spaces.
Qed.

Lemma cleaned_no_capital (q : ascii) (s : string) :
  q = "."%char \/ q = ","%char ->
  chain (no_capital_after q) "a" (clean_text_for_tts s) "a" = true.
Proof.
  intros Hq. unfold clean_text_for_tts.
  destruct (strip (expand_abbreviations (insert_pauses s))) as [|c r] eqn:Hs.
  - destruct Hq; subst q; reflexivity.
  - rewrite <- Hs. apply (chain_strip (no_capital_after q) "a" "a").
    + intros d _. unfold no_capital_after. destruct Hq; subst q; reflexivity.
    + intros d _. unfold no_capital_after. simpl. now rewrite andb_false_r.
    + now rewrite Hs.
    + apply expand_abbreviations_chain; [now apply no_capital_admissible|].
      now apply insert_pauses_no_capital.
Qed.

Lemma cleaned_pauses_present (s : string) :
  pauses_present (clean_text_for_tts s) = true.
Proof.
  unfold pauses_present.
  rewrite !cleaned_no_capital; [reflexivity | now right | now left].
Qed.

(** *** Cleaning a text whose white space is normal *)

Lemma collapse_from_id (b : ascii) (s : string) (a : ascii) (in_run : bool) :
  chain single_space a s b = true ->
  (in_run = true -> isspace a = true) ->
  collapse_from in_run s = s.
Proof.
  revert a in_run. induction s as [|c s IH]; intros a in_run H Hrun; [reflexivity|].
  simpl in H. apply andb_true_iff in H as [Hac Hs]. simpl.
  unfold single_space in Hac. destruct (isspace c) eqn:Hc.
  - apply andb_true_iff in Hac as [Hsp Ha]. apply Ascii.eqb_eq in Hsp. subst c.
    destruct in_run.
    + rewrite Hrun in Ha by reflexivity. discriminate.
    + f_equal. apply (IH " "%char); auto.
  - f_equal. apply (IH c); [exact Hs | discriminate].
Qed.

Lemma pause_after_id (q b : ascii) (s : string) (a : ascii) :
  chain (no_capital_after q) a s b = true -> pause_after q s = s.
Proof.
  revert a. induction s as [|c s IH]; intros a H; [reflexivity|].
  simpl in H. apply andb_true_iff in H as [_ Hs]. cbn [pause_after].
  destruct (Ascii.eqb c q && starts_with_capital s) eqn:Hm.
  - destruct s as [|d s]; [now rewrite andb_false_r in Hm|].
    simpl in Hs, Hm. unfold no_capital_after in Hs.
    rewrite Hm in Hs. discriminate.
  - f_equal. now apply (IH c).
Qed.

Lemma rstrip_id (s : string) (a : ascii) :
  chain single_space a s " " = true -> rstrip s = s.
Proof.
  revert a. induction s as [|c s IH]; intros a H; [reflexivity|].
  simpl in H. apply andb_true_iff in H as [_ Hs]. simpl.
  rewrite (IH c Hs). destruct s as [|d s]; [|reflexivity].
  simpl in Hs. unfold single_space in Hs. simpl in Hs.
  destruct (isspace c); [discriminate | reflexivity].
Qed.

Lemma strip_id (s : string) : spaces_normal s = true -> strip s = s.
Proof.
  destruct s as [|c s]; [reflexivity|]. unfold spaces_normal, strip. intros H.
  assert (lstrip (String c s) = String c s) as ->.
  { simpl in H. apply andb_true_iff in H as [Hc _]. simpl.
    unfold single_space in Hc. simpl in Hc.
    destruct (isspace c); [|reflexivity].
    now rewrite andb_false_r in Hc. }
  now apply (rstrip_id _ " "%char).
Qed.

Lemma expand_abbreviations_spaces_normal (s : string) :
  spaces_normal s = true -> spaces_normal (expand_abbreviations s) = true.
Proof.
  destruct s as [|c s]; [reflexivity|]. unfold spaces_normal at 1. intros H.
  apply (expand_abbreviations_chain _ _ _ _ single_space_admissible) in H.
  unfold spaces_normal. now destruct (expand_abbreviations (String c s)).
Qed.

Lemma insert_pauses_id (s : string) :
  spaces_normal s = true -> pauses_present s = true -> insert_pauses s = s.
Proof.
  intros Hs [Hdot Hcomma]%andb_true_iff. rewrite insert_pauses_spec.
  assert (collapse_from false s = s) as ->.
  { destruct s as [|c s]; [reflexivity|].
    apply (collapse_from_id " " _ " "); [exact Hs | discriminate]. }
  rewrite (pause_after_id "." "a" s "a" Hdot).
  apply (pause_after_id "," "a" s "a" Hcomma).
Qed.

Lemma whitespace_runs_normal (b : ascii) (s : string) (a : ascii) :
  chain single_space a s b = true ->
  Forall (fun run => run = " ") (findall_aux false whitespace_run s 0).
Proof.
  revert a. induction s as [|c s IH]; intros a H; [constructor|].
  simpl in H. apply andb_true_iff in H as [Hac Hs].
  cbn [findall_aux]. rewrite match_whitespace_run. simpl leading_space.
  unfold single_space in Hac. destruct (isspace c) eqn:Hc.
  - apply andb_true_iff in Hac as [Hsp _]. apply Ascii.eqb_eq in Hsp. subst c.
    assert (leading_space s = 0) as ->.
    { destruct s as [|d s]; [reflexivity|]. simpl in *.
      apply andb_true_iff in Hs as [Hd _]. unfold single_space in Hd.
      destruct (isspace d); [|reflexivity].
      now rewrite andb_false_r in Hd. }
    constructor; [reflexivity | now apply (IH " "%char)].
  - now apply (IH c).
Qed.

Lemma cleaned_whitespace_runs (s : string) :
  Forall (fun run => run = " ") (whitespace_runs (clean_text_for_tts s)).
Proof.
  pose proof (cleaned_spaces_normal s) as H. unfold spaces_normal in H.
  unfold whitespace_runs, findall.
  destruct (clean_text_for_tts s) as [|c r]; [constructor|].
  now apply (whitespace_runs_normal " " _ " ").
Qed.



(** *** Where no pause is inserted *)












(** C8 (as amended).  In a cleaned text every maximal white space run is
    one space and there is none at either end; on such a text the white
    space collapsing, the pause insertion and the trimming change nothing,
    so that cleaning it again only expands abbreviations, and the result
    has single spaces again. *)
Theorem cleaner_whitespace_is_stable (txt : string) :
  let once := clean_text_for_tts txt in
  Forall (fun run => run = " ") (whitespace_runs once) /\
  collapse_whitespace once = once /\
  insert_pauses once = once /\
  strip once = once /\
  clean_text_for_tts once = expand_abbreviations once /\
  Forall (fun run => run = " ") (whitespace_runs (clean_text_for_tts once)).
Proof.
  intros once.
  pose proof (cleaned_spaces_normal txt) as Hn.
  pose proof (cleaned_pauses_present txt) as Hp.
  fold once in Hn, Hp.
  assert (insert_pauses once = once) as Hid by now apply insert_pauses_id.
  split; [apply cleaned_whitespace_runs|].
  split.
  { rewrite collapse_whitespace_spec. destruct once as [|c r]; [reflexivity|].
    apply (collapse_from_id " " _ " "); [exact Hn | discriminate]. }
  split; [exact Hid|].
  split; [now apply strip_id|].
  split.
  { unfold clean_text_for_tts at 1. rewrite Hid.
    now apply strip_id, expand_abbreviations_spaces_normal. }
  apply cleaned_whitespace_runs.
Qed.

(** C8 as stated fails: the second cleaning can add white space runs,
    because an abbreviation can appear only once the first cleaning has
    expanded another one. *)
Lemma cleaner_second_pass_adds_space :
  clean_text_for_tts "e.g..g." = "for example.g." /\
  clean_text_for_tts (clean_text_for_tts "e.g..g.") = "for examplfor example" /\
  whitespace_runs (clean_text_for_tts "e.g..g.") = [" "] /\
  whitespace_runs (clean_text_for_tts (clean_text_for_tts "e.g..g.")) = [" "; " "] /\
  whitespace_runs (clean_text_for_tts (clean_text_for_tts "e.g..g."))
    <> whitespace_runs (clean_text_for_tts "e.g..g.").
Proof. repeat split; try reflexivity. discriminate. Qed.

(** ** The job orchestrator *)

Section Synthesis.
Variables (env : Env) (job audio_dir : string) (total : nat).

Local Abbreviation step := (synthesis_step env job audio_dir total).
Local Abbreviation ok := (fun item : nat * TextSegment => synthesis_ok env audio_dir item = true).

Lemma synthesis_step_rendered (w : World) (i : nat) (segment : TextSegment)
    (produced : list string) :
  synthesis_ok env audio_dir (i, segment) = true ->
  audio_files w !! job = Some produced ->
  step w (i, segment)
  = set_job job (written_status total i)
      (set_audio job (produced ++ [output_file audio_dir i])
         (write_file (output_file audio_dir i) w)).
Proof.
  unfold step, synthesis_step, generate_audio_for_segment, synthesis_ok.
  cbn [fst snd]. destruct (tts_model env) as [tts|]; [|discriminate].
  intros -> Hl. cbn [write_file audio_files]. now rewrite Hl.
Qed.

Lemma synthesis_step_skipped (w : World) (i : nat) (segment : TextSegment) :
  synthesis_ok env audio_dir (i, segment) = false ->
  step w (i, segment) = w.
Proof.
  unfold step, synthesis_step, generate_audio_for_segment, synthesis_ok.
  cbn [fst snd]. destruct (tts_model env) as [tts|]; [|reflexivity].
  now intros ->.
Qed.

(** The two registries after the loop has gone through [items]. *)
Lemma synthesis_fold (items : list (nat * TextSegment)) (w : World)
    (produced : list string) :
  audio_files w !! job = Some produced ->
  let w' := fold_left step items w in
  audio_files w' !! job
    = Some (produced ++ map (output_file audio_dir) (map fst (filter ok items))) /\
  processing_jobs w' !! job
    = match last (map fst (filter ok items)) with
      | Some i => Some (written_status total i)
      | None => processing_jobs w !! job
      end.
Proof.
  revert w produced. induction items as [|[i segment] items IH]; intros w produced Hl.
  - simpl. rewrite app_nil_r. auto.
  - cbn [fold_left]. rewrite filter_cons.
    destruct (decide (ok (i, segment))) as [Hok|Hno].
    + rewrite (synthesis_step_rendered w i segment produced Hok Hl).
      edestruct (IH (set_job job (written_status total i)
                       (set_audio job (produced ++ [output_file audio_dir i])
                          (write_file (output_file audio_dir i) w))))
        as [Ha Hj].
      { simpl. apply lookup_insert_eq. }
      cbn zeta. rewrite Ha, Hj. split.
      * simpl. now rewrite <- app_assoc.
      * cbn [map fst]. rewrite last_cons.
        destruct (last (map fst (filter ok items))); [reflexivity|].
        simpl. apply lookup_insert_eq.
    + apply not_true_is_false in Hno.
      rewrite (synthesis_step_skipped w i segment Hno). now apply IH.
Qed.

End Synthesis.

Lemma enumerate_take_indices {A} (keep : nat * A -> Prop) `{!forall x, Decision (keep x)}
    (l : list A) (start k : nat) :
  let idx := map fst (filter keep (take k (enumerate start l))) in
  StronglySorted lt idx /\
  Forall (fun i => start <= i < start + k `min` length l) idx /\
  length idx <= k `min` length l.
Proof.
  revert start k. induction l as [|x l IH]; intros start k.
  - destruct k; simpl; repeat split; constructor.
  - destruct k as [|k]; [simpl; repeat split; constructor|].
    cbn [enumerate take]. rewrite filter_cons.
    destruct (IH (S start) k) as (Hs & Hb & Hlen).
    assert (Forall (fun i => start <= i < start + S k `min` length (x :: l))
              (map fst (filter keep (take k (enumerate (S start) l))))) as Hb'.
    { eapply Forall_impl; [exact Hb|]. simpl. intros i. lia. }
    destruct (decide (keep (start, x))); cbn zeta.
    + cbn [map fst]. split; [|split].
      * constructor; [exact Hs|].
        eapply Forall_impl; [exact Hb|]. simpl. intros i. lia.
      * constructor; [simpl; lia | exact Hb'].
      * simpl in *. lia.
    + split; [exact Hs|]. split; [exact Hb'|]. simpl in *. lia.
Qed.

Lemma enumerate_lookup {A} (l : list A) (start i : nat) (x : A) :
  l !! i = Some x -> enumerate start l !! i = Some (start + i, x).
Proof.
  revert start i. induction l as [|y l IH]; intros start i; [now destruct i|].
  destruct i as [|i]; simpl.
  - intros [= ->]. now rewrite Nat.add_0_r.
  - intros H. rewrite (IH (S start) i H). f_equal. f_equal. lia.
Qed.

Lemma enumerate_length {A} (l : list A) (start : nat) :
  length (enumerate start l) = length l.
Proof. revert start. induction l; intros; simpl; auto. Qed.

(** *** Progress values *)

Lemma segment_progress_bounds (i total : nat) :
  i < total -> (60 <= segment_progress i total <= 90)%Z.
Proof.
  intros Hi. unfold segment_progress.
  assert (0 <= (30 * (Z.of_nat i + 1)) / Z.of_nat total <= 30)%Z; [|lia].
  split.
  - apply Z.div_pos; lia.
  - apply Z.div_le_upper_bound; lia.
Qed.

Lemma segment_progress_mono (i j total : nat) :
  0 < total -> i <= j -> (segment_progress i total <= segment_progress j total)%Z.
Proof.
  intros Ht Hij. unfold segment_progress.
  apply Z.add_le_mono_l, Z.div_le_mono; lia.
Qed.

Lemma segment_progress_last (total : nat) :
  0 < total -> segment_progress (total - 1) total = 90%Z.
Proof.
  intros Ht. unfold segment_progress.
  replace (Z.of_nat (total - 1) + 1)%Z with (Z.of_nat total) by lia.
  rewrite Z.div_mul by lia. reflexivity.
Qed.

(** *** File names *)

Lemma has_slash_app (a b : string) : has_slash (a +:+ b) = has_slash a || has_slash b.
Proof.
  induction a as [|c a IH]; [reflexivity|].
  rewrite str_app_cons. simpl. now rewrite IH, orb_assoc.
Qed.

Lemma has_slash_digits (d : uint) : has_slash (NilEmpty.string_of_uint d) = false.
Proof. induction d; simpl; auto. Qed.

Lemma has_slash_zeros (n : nat) : has_slash (zeros n) = false.
Proof. induction n; simpl; auto. Qed.

Lemma has_slash_file_name (i : nat) : has_slash (segment_file_name i) = false.
Proof.
  unfold segment_file_name, format_04d, str_of_nat.
  now rewrite !has_slash_app, has_slash_zeros, has_slash_digits.
Qed.

Lemma basename_plain (s : string) : has_slash s = false -> os_path_basename s = s.
Proof. destruct s as [|c s]; [reflexivity|]. intros H. cbn [os_path_basename]. now rewrite H. Qed.

Lemma ends_with_slash_has_slash (a b : string) :
  ends_with_slash a = true -> has_slash (a +:+ b) = true.
Proof.
  induction a as [|c a IH]; [discriminate|].
  rewrite str_app_cons. simpl. destruct a as [|d a].
  - intros ->. reflexivity.
  - intros H. rewrite (IH H). apply orb_true_r.
Qed.

Lemma basename_after_slash (a b : string) :
  has_slash b = false -> ends_with_slash a = true ->
  os_path_basename (a +:+ b) = b.
Proof.
  intros Hb. induction a as [|c a IH]; [discriminate|].
  intros Ha. rewrite str_app_cons. cbn [os_path_basename].
  rewrite <- str_app_cons, (ends_with_slash_has_slash _ b Ha).
  destruct a as [|d a].
  - rewrite str_app_nil_l. now apply basename_plain.
  - apply IH. exact Ha.
Qed.

Lemma ends_with_slash_snoc (a : string) : ends_with_slash (a +:+ "/") = true.
Proof.
  induction a as [|c a IH]; [reflexivity|].
  rewrite str_app_cons. simpl. destruct (a +:+ "/") eqn:E; [|exact IH].
  destruct a; discriminate.
Qed.

Lemma basename_join (dir name : string) :
  has_slash name = false ->
  os_path_basename (os_path_join dir name) = name.
Proof.
  intros Hn. unfold os_path_join.
  assert (String.prefix "/" name = false) as ->.
  { destruct name as [|c name]; [reflexivity|].
    cbn [has_slash] in Hn. apply orb_false_iff in Hn as [Hc _].
    cbn [String.prefix].
    destruct (ascii_dec "/" c) as [<-|]; [discriminate | reflexivity]. }
  destruct dir as [|c dir]; [now apply basename_plain|].
  change (negb (truthy (String c dir)) || ends_with_slash (String c dir))
    with (ends_with_slash (String c dir)).
  destruct (ends_with_slash (String c dir)) eqn:He.
  - now apply basename_after_slash.
  - rewrite <- str_app_assoc. apply basename_after_slash; [exact Hn|].
    apply ends_with_slash_snoc.
Qed.

Lemma basename_output_file (audio_dir : string) (i : nat) :
  os_path_basename (output_file audio_dir i) = "segment_" +:+ format_04d i +:+ ".wav".
Proof. apply basename_join, has_slash_file_name. Qed.

Lemma format_04d_width (i : nat) :
  4 <= String.length (format_04d i) /\
  format_04d i = zeros (4 - String.length (str_of_nat i)) +:+ str_of_nat i.
Proof.
  split; [|reflexivity]. unfold format_04d. rewrite str_length_app.
  assert (forall n, String.length (zeros n) = n) as ->
    by (induction n; simpl; auto).
  lia.
Qed.

(** *** The loop, from the entry into the synthesis stage *)

Lemma synthesis_loop_state (env : Env) (job audio_dir : string)
    (processed : list TextSegment) (k : nat) (w0 : World) :
  let w := synthesis_loop env job audio_dir processed k (enter_synthesis job w0) in
  let idx := rendered_indices env audio_dir processed k in
  audio_files w !! job = Some (map (output_file audio_dir) idx) /\
  processing_jobs w !! job
    = match last idx with
      | Some i => Some (written_status (length processed) i)
      | None => Some (Status (mkStatus "Generating AI voice..." 60 None))
      end.
Proof.
  cbn zeta. unfold synthesis_loop, rendered_indices.
  destruct (synthesis_fold env job audio_dir (length processed)
              (take k (enumerate 0 processed)) (enter_synthesis job w0) [])
    as [Ha Hj].
  { simpl. apply lookup_insert_eq. }
  cbn zeta in Ha, Hj. rewrite Ha, Hj. split; [reflexivity|].
  destruct (last _); [reflexivity|].
  simpl. apply lookup_insert_eq.
Qed.

Lemma synthesis_loop_next (env : Env) (job audio_dir : string)
    (processed : list TextSegment) (i : nat) (segment : TextSegment) (w : World) :
  processed !! i = Some segment ->
  synthesis_loop env job audio_dir processed (S i) w
  = synthesis_step env job audio_dir (length processed)
      (synthesis_loop env job audio_dir processed i w) (i, segment).
Proof.
  intros H. unfold synthesis_loop.
  rewrite (take_S_r _ _ (i, segment)) by now apply (enumerate_lookup processed 0 i).
  now rewrite fold_left_app.
Qed.

Lemma rendered_indices_bounds (env : Env) (audio_dir : string)
    (processed : list TextSegment) (k : nat) :
  let idx := rendered_indices env audio_dir processed k in
  StronglySorted lt idx /\
  Forall (fun i => i < k /\ i < length processed) idx /\
  length idx <= k /\ length idx <= length processed.
Proof.
  cbn zeta. unfold rendered_indices.
  destruct (enumerate_take_indices
              (fun item => synthesis_ok env audio_dir item = true) processed 0 k)
    as (Hs & Hb & Hl).
  cbn zeta in *. split; [exact Hs|]. split; [|lia].
  eapply Forall_impl; [exact Hb|]. simpl. intros i. lia.
Qed.

Lemma process_pdf_background_ok (env : Env) (job pdf_path : string) (w : World)
    (segs : list RawSegment) :
  extract_text_from_pdf env pdf_path = Ok segs ->
  let processed := process_text_segments segs in
  process_pdf_background env job pdf_path w
  = set_job job
      (Result (mkResult job processed (first_total_pages segs) "completed"))
      (set_job job (Status (mkStatus "Finalizing..." 100 None))
         (synthesis_loop env job (mkdtemp env) processed (length processed)
            (enter_synthesis job
               (set_job job
                  (Status (mkStatus "Analyzing content for voice processing..." 40 None))
                  (set_job job
                     (Status (mkStatus "Extracting text from PDF..." 20 None)) w))))).
Proof. intros H. unfold process_pdf_background. now rewrite H. Qed.

(** C1 (as amended).  In the synthesis stage, with [total >= 1] segments:
    when the segment of index [i] has been rendered, the entry of the job
    is overwritten with a status whose progress is the integer part of
    [60 + 30 * (i + 1) / total], a function of the number of segments
    attempted; when the segment is skipped, the entry stays as it was
    before the attempt.  The progress read before and after an attempt
    never decreases and stays between 60 and 90, and the value written
    for a later segment is never smaller. *)
Theorem progress_written_when_segment_is_rendered (env : Env)
    (job audio_dir : string) (processed : list TextSegment) (w0 : World)
    (i : nat) (segment : TextSegment) :
  processed !! i = Some segment ->
  let total := length processed in
  let start := enter_synthesis job w0 in
  let before := synthesis_loop env job audio_dir processed i start in
  let after := synthesis_loop env job audio_dir processed (S i) start in
  (synthesis_ok env audio_dir (i, segment) = true ->
   processing_jobs after !! job
   = Some (Status (mkStatus (segment_stage i total)
                     (60 + (30 * (Z.of_nat i + 1)) / Z.of_nat total)%Z None))) /\
  (synthesis_ok env audio_dir (i, segment) = false ->
   processing_jobs after !! job = processing_jobs before !! job) /\
  (exists p p', status_progress (processing_jobs before !! job) = Some p /\
                status_progress (processing_jobs after !! job) = Some p' /\
                (60 <= p <= p')%Z /\ (p' <= 90)%Z) /\
  (forall j, i <= j < total ->
     (segment_progress i total <= segment_progress j total)%Z).
Proof.
  intros Hi total start before after.
  assert (i < total) as Hlt by (apply lookup_lt_Some in Hi; exact Hi).
  destruct (synthesis_loop_state env job audio_dir processed i w0) as [Ha Hj].
  cbn zeta in Ha, Hj. fold start before in Ha, Hj.
  assert (after = synthesis_step env job audio_dir total before (i, segment)) as Hafter
    by now apply synthesis_loop_next.
  assert (synthesis_ok env audio_dir (i, segment) = true ->
          processing_jobs after !! job = Some (written_status total i)) as Hok.
  { intros Hok. rewrite Hafter.
    rewrite (synthesis_step_rendered env job audio_dir total before i segment _ Hok Ha).
    simpl. apply lookup_insert_eq. }
  assert (synthesis_ok env audio_dir (i, segment) = false ->
          processing_jobs after !! job = processing_jobs before !! job) as Hskip.
  { intros Hno. rewrite Hafter.
    now rewrite (synthesis_step_skipped env job audio_dir total before i segment Hno). }
  assert (exists p, status_progress (processing_jobs before !! job) = Some p /\
                    (60 <= p <= segment_progress i total)%Z) as (p & Hp & Hpb).
  { rewrite Hj.
    destruct (last (rendered_indices env audio_dir processed i)) as [j|] eqn:Hlast.
    - exists (segment_progress j total). split; [reflexivity|].
      apply last_Some_elem_of in Hlast.
      destruct (rendered_indices_bounds env audio_dir processed i) as (_ & Hb & _).
      cbn zeta in Hb. rewrite Forall_forall in Hb. specialize (Hb _ Hlast).
      split.
      + apply segment_progress_bounds. fold total in Hb. lia.
      + apply segment_progress_mono; lia.
    - exists 60%Z. split; [reflexivity|].
      pose proof (segment_progress_bounds i total Hlt). lia. }
  split; [exact Hok|]. split; [exact Hskip|]. split.
  - destruct (synthesis_ok env audio_dir (i, segment)) eqn:Hs.
    + exists p, (segment_progress i total). rewrite (Hok eq_refl).
      pose proof (segment_progress_bounds i total Hlt).
      repeat split; try assumption; lia.
    + exists p, p. rewrite (Hskip eq_refl).
      pose proof (segment_progress_bounds i total Hlt).
      repeat split; try assumption; lia.
  - intros j Hj'. apply segment_progress_mono; lia.
Qed.

Lemma progress_written_when_segment_is_rendered_witness :
  processing_jobs
    (synthesis_loop (sample_env 1) "job" "/tmp/audio" sample_segments 1
       (enter_synthesis "job" empty_world)) !! "job"
  = Some (Status (mkStatus "Generating audio segment 1/3..." 70 None)).
Proof.
  destruct (progress_written_when_segment_is_rendered (sample_env 1) "job"
              "/tmp/audio" sample_segments empty_world 0
              (mkSegment (sample_paragraph "First") 1 false []))
    as [Hrendered _].
  - reflexivity.
  - apply Hrendered. reflexivity.
Defined.

(** C1 as stated fails: of three segments the second is skipped; after
    the second attempt the entry still carries the 70 written for the
    first segment, not the integer part of [60 + 30 * 2 / 3]. *)
Lemma progress_not_written_for_skipped_segment :
  let w := synthesis_loop (sample_env 1) "job" "/tmp/audio" sample_segments 2
             (enter_synthesis "job" empty_world) in
  synthesis_ok (sample_env 1) "/tmp/audio"
    (1, mkSegment (sample_paragraph "Second") 1 false []) = false /\
  processing_jobs w !! "job"
    = Some (Status (mkStatus "Generating audio segment 1/3..." 70 None)) /\
  status_progress (processing_jobs w !! "job") <> Some (60 + (30 * 2) / 3)%Z.
Proof. cbn zeta. split; [|split]; [reflexivity | reflexivity | discriminate]. Qed.

Lemma filter_all_items (env : Env) (audio_dir : string) (processed : list TextSegment) :
  map (output_file audio_dir) (rendered_indices env audio_dir processed (length processed))
  = map (fun item => output_file audio_dir (fst item))
        (filter (fun item => synthesis_ok env audio_dir item = true)
                (enumerate 0 processed)).
Proof.
  unfold rendered_indices.
  rewrite firstn_all2 by (rewrite enumerate_length; lia).
  now rewrite map_map.
Qed.

(** The two registries when a job whose document could be read is over. *)
Lemma completed_job_registries (env : Env) (job pdf_path : string)
    (w : World) (segs : list RawSegment) :
  extract_text_from_pdf env pdf_path = Ok segs ->
  let processed := process_text_segments segs in
  let final := process_pdf_background env job pdf_path w in
  audio_files final !! job
    = Some (map (fun item => output_file (mkdtemp env) (fst item))
                (filter (fun item => synthesis_ok env (mkdtemp env) item = true)
                        (enumerate 0 processed))) /\
  processing_jobs final !! job
    = Some (Result (mkResult job processed (first_total_pages segs) "completed")).
Proof.
  intros Hx processed final. unfold final.
  rewrite (process_pdf_background_ok env job pdf_path w segs Hx). split.
  - cbn [set_job audio_files]. fold processed.
    destruct (synthesis_loop_state env job (mkdtemp env) processed (length processed)
                (set_job job
                   (Status (mkStatus "Analyzing content for voice processing..." 40 None))
                   (set_job job
                      (Status (mkStatus "Extracting text from PDF..." 20 None)) w)))
      as [Ha _].
    cbn zeta in Ha. rewrite Ha. f_equal. apply filter_all_items.
  - simpl. apply lookup_insert_eq.
Qed.

(** C2.  When the document yields segments, the audio list of the job is
    made of the output paths of the segments whose synthesis succeeded, in
    the order of the segments and with nothing in the place of the others,
    and the entry of the job ends as a result with status [completed]; with
    three segments of which the second fails, the list has the two paths
    of the first and the third. *)
Theorem partial_success_still_completes (env : Env) (job pdf_path : string)
    (w : World) (segs : list RawSegment) :
  extract_text_from_pdf env pdf_path = Ok segs ->
  let processed := process_text_segments segs in
  let audio_dir := mkdtemp env in
  let final := process_pdf_background env job pdf_path w in
  audio_files final !! job
    = Some (map (fun item => output_file audio_dir (fst item))
                (filter (fun item => synthesis_ok env audio_dir item = true)
                        (enumerate 0 processed))) /\
  processing_jobs final !! job
    = Some (Result (mkResult job processed (first_total_pages segs) "completed")) /\
  (forall s1 s2 s3, processed = [s1; s2; s3] ->
     synthesis_ok env audio_dir (0, s1) = true ->
     synthesis_ok env audio_dir (1, s2) = false ->
     synthesis_ok env audio_dir (2, s3) = true ->
     audio_files final !! job
       = Some [output_file audio_dir 0; output_file audio_dir 2]).
Proof.
  intros Hx processed audio_dir final.
  destruct (completed_job_registries env job pdf_path w segs Hx) as [Haudio Hdone].
  fold processed audio_dir final in Haudio, Hdone.
  split; [exact Haudio|]. split; [exact Hdone|].
  intros s1 s2 s3 Hp H1 H2 H3. rewrite Haudio, Hp. cbn [enumerate].
  rewrite !filter_cons, filter_nil.
  rewrite decide_True by exact H1.
  rewrite decide_False by congruence.
  rewrite decide_True by exact H3.
  reflexivity.
Qed.

Lemma partial_success_still_completes_witness :
  audio_files sample_final !! "job"
    = Some ["/tmp/audio/segment_0000.wav"; "/tmp/audio/segment_0002.wav"] /\
  processing_jobs sample_final !! "job"
    = Some (Result (mkResult "job" sample_segments 1 "completed")).
Proof.
  destruct (partial_success_still_completes (sample_env 1) "job" "paper.pdf"
              empty_world (segments_of_pages [Some sample_page]) eq_refl)
    as (_ & Hdone & Hthree).
  split.
  - apply (Hthree (mkSegment (sample_paragraph "First") 1 false [])
                  (mkSegment (sample_paragraph "Second") 1 false [])
                  (mkSegment (sample_paragraph "Third") 1 false []));
      reflexivity.
  - exact Hdone.
Defined.

Lemma segments_of_pages_total (pages : list (option string)) :
  Forall (fun seg => raw_total_pages seg = length pages) (segments_of_pages pages).
Proof.
  rewrite segments_of_pages_spec. generalize (length pages) as total.
  intros total. generalize (enumerate 1 pages) as items.
  induction items as [|[n extracted] items IH]; [constructor|].
  cbn [map concat]. apply Forall_app. split; [|exact IH].
  destruct extracted as [page_text|]; [|constructor].
  rewrite page_segments_spec. apply Forall_forall. intros seg Hin.
  apply list_elem_of_fmap in Hin as (p & -> & _). reflexivity.
Qed.

(** C3.  When the job completes, the page count of its result is the one
    stamped on the first raw segment if there is one (which is the number
    of pages of the document), and 0 if the document gave no raw segment;
    in that case the result still has status [completed], and no
    segment. *)
Theorem total_pages_of_first_segment (env : Env) (job pdf_path : string)
    (w : World) (segs : list RawSegment) :
  extract_text_from_pdf env pdf_path = Ok segs ->
  exists r,
    processing_jobs (process_pdf_background env job pdf_path w) !! job
      = Some (Result r) /\
    status r = "completed" /\
    (forall first rest, segs = first :: rest ->
       total_pages r = raw_total_pages first /\
       (forall pages, pdf_pages env pdf_path = Ok pages ->
          total_pages r = length pages)) /\
    (segs = [] -> total_pages r = 0 /\ segments r = []).
Proof.
  intros Hx.
  exists (mkResult job (process_text_segments segs) (first_total_pages segs) "completed").
  split; [|split; [reflexivity|split]].
  - rewrite (process_pdf_background_ok env job pdf_path w segs Hx).
    simpl. apply lookup_insert_eq.
  - intros first rest ->. split; [reflexivity|].
    intros pages Hp. unfold extract_text_from_pdf in Hx. rewrite Hp in Hx.
    injection Hx as Hsegs.
    pose proof (segments_of_pages_total pages) as Hall.
    rewrite Hsegs in Hall. now inversion Hall.
  - intros ->. split; reflexivity.
Qed.

Lemma total_pages_of_first_segment_witness :
  exists r,
    processing_jobs (process_pdf_background blank_env "job" "blank.pdf" empty_world)
      !! "job" = Some (Result r) /\
    status r = "completed" /\ total_pages r = 0 /\ segments r = [].
Proof.
  destruct (total_pages_of_first_segment blank_env "job" "blank.pdf" empty_world
              [] eq_refl) as (r & Hr & Hs & _ & Hzero).
  exists r. destruct (Hzero eq_refl) as [Hp Hn]. auto.
Defined.

(** C10.  Without a speech model every synthesis raises the
    model-not-available error, which the loop catches: the job ends with a
    result of status [completed] that carries all processed segments, and
    its audio list stays empty. *)
Theorem job_completes_without_model (env : Env) (job pdf_path : string)
    (w : World) (segs : list RawSegment) :
  tts_model env = None ->
  extract_text_from_pdf env pdf_path = Ok segs ->
  let final := process_pdf_background env job pdf_path w in
  (forall segment output_dir i w',
     generate_audio_for_segment env segment output_dir i w'
     = (Raise (HTTPException 500 "TTS model not available"), w')) /\
  processing_jobs final !! job
    = Some (Result (mkResult job (process_text_segments segs)
                      (first_total_pages segs) "completed")) /\
  audio_files final !! job = Some [].
Proof.
  intros Hm Hx final.
  destruct (completed_job_registries env job pdf_path w segs Hx)
    as (Haudio & Hdone).
  split; [|split; [exact Hdone|]].
  - intros segment output_dir i w'. unfold generate_audio_for_segment.
    now rewrite Hm.
  - unfold final. rewrite Haudio. f_equal.
    generalize (enumerate 0 (process_text_segments segs)) as items.
    induction items as [|item items IH]; [reflexivity|].
    rewrite filter_cons.
    rewrite decide_False; [exact IH|].
    unfold synthesis_ok. rewrite Hm. discriminate.
Qed.

Lemma job_completes_without_model_witness :
  processing_jobs (process_pdf_background mute_env "job" "paper.pdf" empty_world)
    !! "job" = Some (Result (mkResult "job" sample_segments 1 "completed")) /\
  audio_files (process_pdf_background mute_env "job" "paper.pdf" empty_world)
    !! "job" = Some [].
Proof.
  destruct (job_completes_without_model mute_env "job" "paper.pdf" empty_world
              (segments_of_pages [Some sample_page]) eq_refl eq_refl)
    as (_ & Hdone & Haudio).
  split; [exact Hdone | exact Haudio].
Defined.

(** *** The fetch endpoint *)

Lemma get_audio_segment_ok (w : World) (job : string) (pos : Z) (file : FileResponse) :
  get_audio_segment w job pos = Ok file ->
  exists produced path,
    audio_files w !! job = Some produced /\
    py_index produced pos = Ok path /\
    file = mkFileResponse path "audio/wav" ("segment_" +:+ str_of_Z pos +:+ ".wav").
Proof.
  unfold get_audio_segment.
  destruct (audio_files w !! job) as [produced|]; [|discriminate].
  destruct (pos >=? Z.of_nat (length produced))%Z; [discriminate|].
  destruct (py_index produced pos) as [path|e] eqn:Hp; [|discriminate].
  destruct (bool_decide (path ∈ disk w)); [|discriminate].
  intros [= <-]. eauto.
Qed.

(** X13.  For a position that is not negative, the endpoint answers
    not-found exactly when the job has no audio list, the position is not
    below the length of the list, or the file recorded there is not on
    disk. *)
Lemma get_audio_segment_not_found (w : World) (job : string) (pos : Z) :
  (0 <= pos)%Z ->
  is_not_found (get_audio_segment w job pos) = true <->
  audio_files w !! job = None \/
  exists produced, audio_files w !! job = Some produced /\
    ((Z.of_nat (length produced) <= pos)%Z \/
     exists path, produced !! Z.to_nat pos = Some path /\ path ∉ disk w).
Proof.
  intros Hpos. unfold get_audio_segment.
  destruct (audio_files w !! job) as [produced|]; [|simpl; tauto].
  destruct (Z.geb_spec pos (Z.of_nat (length produced))) as [Hge|Hlt].
  - simpl. split; [|reflexivity]. intros _. right. exists produced. split; [reflexivity|].
    left. lia.
  - unfold py_index. rewrite (proj2 (Z.ltb_ge pos 0) Hpos).
    rewrite (proj2 (Z.ltb_ge pos 0) Hpos).
    destruct (produced !! Z.to_nat pos) as [path|] eqn:Hl.
    + destruct (bool_decide (path ∈ disk w)) eqn:Hd.
      * apply bool_decide_eq_true in Hd. simpl. split; [discriminate|].
        intros [[=]|(l & [= <-] & [Hle|(p & Hp & Hn)])]; [lia|].
        rewrite Hl in Hp. injection Hp as <-. contradiction.
      * apply bool_decide_eq_false in Hd. simpl. split; [|reflexivity].
        intros _. right. exists produced. split; [reflexivity|]. right. eauto.
    + apply lookup_ge_None in Hl. lia.
Qed.

Lemma sorted_lookup_ge (l : list nat) (lo n i : nat) :
  StronglySorted lt l -> Forall (fun j => lo <= j) l ->
  l !! n = Some i -> lo + n <= i.
Proof.
  intros Hs. revert lo n. induction Hs as [|x l Hs IH Hx]; intros lo n Hlo; [now destruct n|].
  inversion Hlo; subst. destruct n as [|n]; simpl.
  - intros [= <-]. lia.
  - intros Hn. specialize (IH (S x) n). rewrite <- Nat.add_succ_comm.
    assert (S x + n <= i); [|lia].
    apply IH; [|exact Hn].
    eapply Forall_impl; [exact Hx|]. simpl. intros j. lia.
Qed.

(** C9.  After any number of turns of the synthesis loop, the audio list
    of the job is the list of the output paths of the indices rendered so
    far; it is no longer than the list of processed segments, its indices
    increase strictly, and the entry of index [i] has the base name
    [segment_] + [i] padded with zeros to four digits + [.wav].  The index
    in the name of the entry at a position is therefore at least the
    position, and larger once a segment has been skipped, while the fetch
    endpoint names the download after the requested position. *)
Theorem audio_list_invariant (env : Env) (job audio_dir : string)
    (processed : list TextSegment) (w0 : World) (k : nat) :
  let w := synthesis_loop env job audio_dir processed k (enter_synthesis job w0) in
  let idx := rendered_indices env audio_dir processed k in
  audio_files w !! job = Some (map (output_file audio_dir) idx) /\
  length (map (output_file audio_dir) idx) <= length processed /\
  StronglySorted lt idx /\
  Forall (fun i => i < k /\ i < length processed) idx /\
  (forall n i, idx !! n = Some i -> n <= i) /\
  (forall i,
     os_path_basename (output_file audio_dir i)
       = "segment_" +:+ format_04d i +:+ ".wav" /\
     4 <= String.length (format_04d i) /\
     format_04d i = zeros (4 - String.length (str_of_nat i)) +:+ str_of_nat i) /\
  (forall pos file, get_audio_segment w job pos = Ok file ->
     exists path,
       py_index (map (output_file audio_dir) idx) pos = Ok path /\
       file = mkFileResponse path "audio/wav"
                ("segment_" +:+ str_of_Z pos +:+ ".wav")) /\
  (audio_files sample_final !! "job"
     = Some ["/tmp/audio/segment_0000.wav"; "/tmp/audio/segment_0002.wav"] /\
   get_audio_segment sample_final "job" 1
     = Ok (mkFileResponse "/tmp/audio/segment_0002.wav" "audio/wav" "segment_1.wav")).
Proof.
  intros w idx.
  destruct (synthesis_loop_state env job audio_dir processed k w0) as [Ha _].
  destruct (rendered_indices_bounds env audio_dir processed k) as (Hs & Hb & _ & Hl).
  cbn zeta in Ha, Hs, Hb, Hl. fold w idx in Ha, Hs, Hb, Hl.
  split; [exact Ha|]. split; [now rewrite length_map|].
  split; [exact Hs|]. split; [exact Hb|]. split; [|split; [|split]].
  - intros n i Hn. apply (sorted_lookup_ge idx 0 n i Hs); [|exact Hn].
    apply Forall_forall. intros; lia.
  - intros i. split; [apply basename_output_file | apply format_04d_width].
  - intros pos file Hf.
    destruct (get_audio_segment_ok w job pos file Hf) as (produced & path & Hp & Hi & ->).
    rewrite Ha in Hp. injection Hp as <-. eauto.
  - split; reflexivity.
Qed.

Lemma audio_list_invariant_witness :
  rendered_indices (sample_env 1) "/tmp/audio" sample_segments 3 !! 1 = Some 2 /\
  1 <= 2.
Proof.
  split; [reflexivity|].
  destruct (audio_list_invariant (sample_env 1) "job" "/tmp/audio" sample_segments
              empty_world 3) as (_ & _ & _ & _ & Hpos & _).
  apply (Hpos 1 2). reflexivity.
Defined.

(** C4 on the code: the position -1 is below the length of the audio
    list, so the range check lets it pass, and Python's indexing takes the
    last entry; the position -3 raises an IndexError, which is not a
    not-found answer either. *)
Theorem fetch_negative_position_is_served :
  audio_files sample_final !! "job"
    = Some ["/tmp/audio/segment_0000.wav"; "/tmp/audio/segment_0002.wav"] /\
  get_audio_segment sample_final "job" (-1)
    = Ok (mkFileResponse "/tmp/audio/segment_0002.wav" "audio/wav" "segment_-1.wav") /\
  is_not_found (get_audio_segment sample_final "job" (-1)) = false /\
  get_audio_segment sample_final "job" (-3) = Raise IndexError /\
  is_not_found (get_audio_segment sample_final "job" (-3)) = false.
Proof. repeat split; reflexivity. Qed.

(** * Further properties of main.py *)

(** ** Segments of a document *)

Lemma rstrip_cons (c : ascii) (s : string) :
  rstrip s <> "" -> rstrip (String c s) = String c (rstrip s).
Proof. intros H. simpl. now destruct (rstrip s). Qed.

Lemma rstrip_rstrip (s : string) : rstrip (rstrip s) = rstrip s.
Proof.
  induction s as [|c s IH]; [reflexivity|]. simpl.
  destruct (rstrip s) as [|r rs] eqn:Hr.
  - destruct (isspace c) eqn:Hc; [reflexivity|]. simpl. now rewrite Hc.
  - rewrite rstrip_cons; rewrite IH; [reflexivity | discriminate].
Qed.

Lemma lstrip_rstrip_head (c : ascii) (r : string) :
  isspace c = false -> lstrip (rstrip (String c r)) = rstrip (String c r).
Proof.
  intros Hc. simpl. destruct (rstrip r); rewrite ?Hc; simpl; now rewrite Hc.
Qed.

Lemma strip_strip (s : string) : strip (strip s) = strip s.
Proof.
  unfold strip. destruct (lstrip s) as [|c r] eqn:Hl; [reflexivity|].
  rewrite (lstrip_rstrip_head c r (lstrip_head s c r Hl)).
  apply rstrip_rstrip.
Qed.

Lemma paragraphs_trimmed (page_text p : string) :
  p ∈ paragraphs page_text -> strip p = p /\ p <> "".
Proof.
  unfold paragraphs. intros (q & -> & Hq)%list_elem_of_fmap.
  apply list_elem_of_filter in Hq as [Hq _]. split; [apply strip_strip|].
  intros E. rewrite E in Hq. discriminate.
Qed.

(** What the segments of the pages [enumerate(l, start)] look like, for a
    stamped page count [total]. *)
Lemma enumerated_pages_segments (total : nat) (l : list (option string)) (start : nat) :
  let segs := concat (map (fun '(page_num, extracted) =>
                             page_segments total page_num extracted)
                          (enumerate start l)) in
  Forall (fun seg =>
            start <= raw_page seg < start + length l /\
            raw_total_pages seg = total /\
            exists page_text,
              l !! (raw_page seg - start) = Some (Some page_text) /\
              raw_text seg ∈ paragraphs page_text /\
              50 < String.length (raw_text seg)) segs /\
  StronglySorted le (map raw_page segs).
Proof.
  revert start. induction l as [|extracted l IH]; intros start.
  - simpl. split; constructor.
  - cbn [enumerate map concat]. destruct (IH (S start)) as [Hall Hsorted].
    cbn zeta in Hall, Hsorted.
    set (rest := concat (map (fun '(page_num, e) => page_segments total page_num e)
                             (enumerate (S start) l))) in *.
    assert (Forall (fun seg =>
              raw_page seg = start /\ raw_total_pages seg = total /\
              exists page_text, extracted = Some page_text /\
                raw_text seg ∈ paragraphs page_text /\
                50 < String.length (raw_text seg))
              (page_segments total start extracted)) as Hhere.
    { destruct extracted as [page_text|]; [|constructor].
      rewrite page_segments_spec. apply Forall_forall. intros seg Hin.
      apply list_elem_of_fmap in Hin as (p & -> & Hp).
      apply list_elem_of_filter in Hp as [Hlen Hp]. apply Nat.ltb_lt in Hlen.
      simpl. eauto 6. }
    split.
    + apply Forall_app. split.
      * eapply Forall_impl; [exact Hhere|]. simpl.
        intros seg (-> & Ht & page_text & -> & Hp & Hlen).
        split; [lia|]. split; [exact Ht|]. exists page_text.
        rewrite Nat.sub_diag. auto.
      * eapply Forall_impl; [exact Hall|]. simpl.
        intros seg (Hr & Ht & page_text & Hl & Hp).
        split; [lia|]. split; [exact Ht|]. exists page_text.
        replace (raw_page seg - start) with (S (raw_page seg - S start)) by lia.
        auto.
    + rewrite map_app.
      induction Hhere as [|seg here (Hpg & _) Hrest IHhere]; [exact Hsorted|].
      simpl. constructor; [exact IHhere|].
      apply Forall_app. split.
      * apply Forall_fmap. eapply Forall_impl; [exact Hrest|]. simpl.
        intros seg' (Hpg' & _). lia.
      * apply Forall_fmap. eapply Forall_impl; [exact Hall|]. simpl. lia.
Qed.

(** X1.  The segments extracted from a readable document are stamped with
    a page number between 1 and the number of pages and with that number
    of pages; each is a trimmed paragraph of its page, longer than 50
    characters; and the segments come in the order of the pages. *)
Theorem extracted_segments_well_formed (env : Env) (pdf_path : string)
    (pages : list (option string)) :
  pdf_pages env pdf_path = Ok pages ->
  exists segs,
    extract_text_from_pdf env pdf_path = Ok segs /\
    Forall (fun seg =>
              1 <= raw_page seg <= length pages /\
              raw_total_pages seg = length pages /\
              50 < String.length (raw_text seg) /\
              strip (raw_text seg) = raw_text seg /\
              exists page_text,
                pages !! (raw_page seg - 1) = Some (Some page_text) /\
                raw_text seg ∈ paragraphs page_text) segs /\
    StronglySorted le (map raw_page segs).
Proof.
  intros Hp. exists (segments_of_pages pages).
  unfold extract_text_from_pdf. rewrite Hp. split; [reflexivity|].
  rewrite segments_of_pages_spec.
  destruct (enumerated_pages_segments (length pages) pages 1) as [Hall Hsorted].
  split; [|exact Hsorted].
  eapply Forall_impl; [exact Hall|]. simpl.
  intros seg (Hr & Ht & page_text & Hl & Hin & Hlen).
  split; [lia|]. split; [exact Ht|]. split; [exact Hlen|].
  split; [now apply (paragraphs_trimmed page_text)|]. eauto.
Qed.

Lemma extracted_segments_well_formed_witness :
  exists segs,
    extract_text_from_pdf (sample_env 1) "paper.pdf" = Ok segs /\
    map raw_page segs = [1; 1; 1] /\
    StronglySorted le (map raw_page segs).
Proof.
  destruct (extracted_segments_well_formed (sample_env 1) "paper.pdf"
              [Some sample_page] eq_refl) as (segs & Hx & _ & Hs).
  exists segs. split; [exact Hx|]. split; [|exact Hs].
  injection Hx as <-. reflexivity.
Defined.





(** ** Processed segments *)

Lemma process_text_segments_map (segs : list RawSegment) :
  process_text_segments segs = map processed_of segs.
Proof.
  unfold process_text_segments.
  enough (forall acc,
            fold_left
              (fun processed segment =>
                 let ref_info := detect_figure_references (raw_text segment) in
                 let cleaned_text := clean_text_for_tts (raw_text segment) in
                 processed ++
                   [mkSegment cleaned_text (raw_page segment)
                      (ref_has_figure_reference ref_info)
                      (ref_figure_references ref_info)])
              segs acc
            = acc ++ map processed_of segs) as H by apply (H []).
  induction segs as [|raw segs IH]; intros acc.
  - simpl. now rewrite app_nil_r.
  - cbn [fold_left map]. rewrite IH. cbn beta zeta.
    rewrite <- app_assoc. reflexivity.
Qed.

(** X3.  The processed segments correspond one to one, in order, to the
    raw segments: the same number, the same page, the cleaned text of the
    raw text, and the references detected in the raw text.  In every
    processed segment the flag is set exactly when there is a reference,
    and the text has no white space at either end. *)
Theorem processed_segments_correspond (segs : list RawSegment) :
  let processed := process_text_segments segs in
  length processed = length segs /\
  (forall i raw, segs !! i = Some raw ->
     processed !! i
     = Some (mkSegment (clean_text_for_tts (raw_text raw)) (raw_page raw)
               (ref_has_figure_reference (detect_figure_references (raw_text raw)))
               (ref_figure_references (detect_figure_references (raw_text raw))))) /\
  Forall (fun segment =>
            (has_figure_reference segment = true <-> figure_references segment <> []) /\
            strip (text segment) = text segment) processed.
Proof.
  cbn zeta. rewrite process_text_segments_map. split; [apply length_map|]. split.
  - intros i raw Hi. rewrite list_lookup_fmap, Hi. reflexivity.
  - apply Forall_fmap, Forall_forall. intros raw _.
    unfold processed_of. cbn [text has_figure_reference figure_references]. split.
    + unfold detect_figure_references.
      cbn [ref_has_figure_reference ref_figure_references].
      destruct (fold_left _ figure_patterns []) as [|r rs]; simpl.
      * split; [discriminate | congruence].
      * split; [discriminate | reflexivity].
    + unfold clean_text_for_tts. apply strip_strip.
Qed.

Lemma processed_segments_correspond_witness :
  process_text_segments [mkRaw "  See  Figure 2 , e.g. below.Then  " 3 7] !! 0
  = Some (mkSegment "See Figure 2 , for example below. Then" 3 true ["Figure 2"]).
Proof.
  destruct (processed_segments_correspond
              [mkRaw "  See  Figure 2 , e.g. below.Then  " 3 7])
    as (_ & Hat & _).
  apply (Hat 0 (mkRaw "  See  Figure 2 , e.g. below.Then  " 3 7)).
  reflexivity.
Defined.

(** ** What the detector finds *)

Lemma str_take_drop (n : nat) (s : string) : str_take n s +:+ str_drop n s = s.
Proof.
  revert s. induction n as [|n IH]; intros s; [now destruct s|].
  destruct s as [|c s]; [reflexivity|]. simpl.
  now rewrite str_app_cons, IH.
Qed.

Lemma str_drop_drop (i n : nat) (s : string) :
  str_drop n (str_drop i s) = str_drop (i + n) s.
Proof.
  revert s. induction i as [|i IH]; intros s; [now destruct s|].
  destruct s as [|c s]; [now destruct n|]. apply IH.
Qed.

Lemma str_take_length (n : nat) (s : string) :
  n <= String.length s -> String.length (str_take n s) = n.
Proof.
  revert s. induction n as [|n IH]; intros s H; [now destruct s|].
  destruct s as [|c s]; simpl in *; [lia|]. rewrite IH; lia.
Qed.

Lemma str_drop_length (n : nat) (s : string) :
  String.length (str_drop n s) = String.length s - n.
Proof.
  revert s. induction n as [|n IH]; intros s; [destruct s; simpl; lia|].
  destruct s as [|c s]; [reflexivity|]. apply IH.
Qed.

Lemma slice_occurs (i n : nat) (s : string) :
  s = str_take i s +:+ slice i n s +:+ str_drop (i + n) s.
Proof.
  unfold slice. rewrite <- str_drop_drop, str_take_drop. symmetry. apply str_take_drop.
Qed.

Lemma ascending_nonempty (from : nat) (spans : list (nat * nat)) :
  ascending from spans -> Forall (fun span => 0 < snd span) spans.
Proof.
  revert from. induction spans as [|[j m] spans IH]; intros from H; [constructor|].
  simpl in H. destruct H as (_ & Hm & Hrest).
  constructor; [exact Hm | now apply (IH (j + m))].
Qed.

Lemma finditer_spans (icase : bool) (pat : pattern) (txt : string) :
  findall icase pat txt
    = map (fun span => slice (fst span) (snd span) txt) (finditer icase pat txt) /\
  Forall (fun span =>
            0 < snd span /\ fst span + snd span <= String.length txt /\
            match_here icase pat (str_drop (fst span) txt) = Some (snd span))
         (finditer icase pat txt).
Proof.
  unfold findall, finditer. split.
  - rewrite (findall_aux_slices icase pat txt 0 0).
    apply map_ext_Forall, Forall_forall. intros [i n] _. simpl.
    now rewrite Nat.sub_0_r.
  - destruct (finditer_aux_bounds icase pat txt 0 0) as [Hasc Hb].
    pose proof (finditer_aux_matches icase pat txt 0 0) as Hm.
    rewrite Forall_forall in *. intros [i n] Hin.
    specialize (Hb _ Hin). specialize (Hm _ Hin). simpl in *.
    rewrite Nat.sub_0_r in Hm. split; [|split; [lia | exact Hm]].
    pose proof (ascending_nonempty _ _ Hasc) as Hne.
    rewrite Forall_forall in Hne. exact (Hne _ Hin).
Qed.

Lemma references_all (txt : string) :
  ref_figure_references (detect_figure_references txt)
  = concat (map (fun pat => findall true pat txt) figure_patterns).
Proof.
  unfold detect_figure_references. cbn [ref_figure_references].
  now rewrite extend_loop.
Qed.

Lemma reference_origin (txt ref : string) :
  ref ∈ ref_figure_references (detect_figure_references txt) <->
  exists pat span,
    pat ∈ figure_patterns /\ span ∈ finditer true pat txt /\
    ref = slice (fst span) (snd span) txt.
Proof.
  rewrite references_all. rewrite list_elem_of_In, in_concat. split.
  - intros (refs & Hrefs & Hin). apply in_map_iff in Hrefs as (pat & <- & Hpat).
    destruct (finditer_spans true pat txt) as [Heq _]. rewrite Heq in Hin.
    apply in_map_iff in Hin as (span & <- & Hspan).
    exists pat, span. rewrite !list_elem_of_In. auto.
  - intros (pat & span & Hpat & Hspan & ->).
    exists (findall true pat txt). split.
    + apply in_map_iff. exists pat. rewrite <- list_elem_of_In. auto.
    + destruct (finditer_spans true pat txt) as [-> _].
      apply in_map_iff. exists span. rewrite <- list_elem_of_In. auto.
Qed.

(** X4.  The detector sets the flag exactly when one of its nine patterns
    matches at some place of the text, letter case aside; a text without
    such a place gets the flag [false] and no reference. *)
Theorem detector_flag_means_match (txt : string) :
  (ref_has_figure_reference (detect_figure_references txt) = true <->
   exists pat j n,
     pat ∈ figure_patterns /\
     match_here true pat (str_drop j txt) = Some (S n)) /\
  ((forall pat j n, pat ∈ figure_patterns ->
      match_here true pat (str_drop j txt) <> Some (S n)) ->
   detect_figure_references txt = mkRefInfo false []).
Proof.
  assert (ref_has_figure_reference (detect_figure_references txt) = true <->
          exists ref, ref ∈ ref_figure_references (detect_figure_references txt))
    as Hflag.
  { unfold detect_figure_references.
    cbn [ref_has_figure_reference ref_figure_references].
    destruct (fold_left _ figure_patterns []) as [|r rs]; simpl.
    - split; [discriminate|]. intros [ref Hin]. inversion Hin.
    - split; [|reflexivity]. intros _. exists r. left. }
  assert (ref_has_figure_reference (detect_figure_references txt) = true <->
          exists pat j n,
            pat ∈ figure_patterns /\
            match_here true pat (str_drop j txt) = Some (S n)) as Hiff.
  { rewrite Hflag. split.
    - intros (ref & Hin). apply reference_origin in Hin as (pat & span & Hpat & Hspan & _).
      destruct (finditer_spans true pat txt) as [_ Hall].
      rewrite Forall_forall in Hall. destruct (Hall _ Hspan) as (Hpos & _ & Hm).
      exists pat, (fst span), (snd span - 1). split; [exact Hpat|].
      rewrite Hm. f_equal. lia.
    - intros (pat & j & n & Hpat & Hm).
      destruct (finditer_aux_complete true pat txt 0 0 j n ltac:(lia) Hm)
        as (span & Hspan & _).
      exists (slice (fst span) (snd span) txt). apply reference_origin.
      exists pat, span. auto. }
  split; [exact Hiff|].
  intros Hnone.
  destruct (ref_has_figure_reference (detect_figure_references txt)) eqn:Hf.
  - destruct (proj1 Hiff eq_refl) as (pat & j & n & Hpat & Hm).
    now destruct (Hnone pat j n Hpat).
  - unfold detect_figure_references in *.
    cbn [ref_has_figure_reference] in Hf.
    destruct (fold_left _ figure_patterns []) as [|r rs]; [reflexivity | discriminate].
Qed.

Lemma detector_flag_means_match_witness :
  ref_has_figure_reference
    (detect_figure_references "The curve (see   BELOW) rises.") = true.
Proof.
  apply (detector_flag_means_match "The curve (see   BELOW) rises.").
  exists (two_words "see" "below"), 11, 10. split.
  - apply list_elem_of_In. vm_compute. tauto.
  - reflexivity.
Defined.

(** X5.  Every reference that the detector returns is a piece of the text
    as it stands there, not empty, at a place where one of the nine
    patterns matches with exactly the length of the reference. *)
Theorem detector_references_are_verbatim (txt ref : string) :
  ref ∈ ref_figure_references (detect_figure_references txt) ->
  ref <> "" /\
  exists pat before behind,
    pat ∈ figure_patterns /\
    txt = before +:+ ref +:+ behind /\
    match_here true pat (ref +:+ behind) = Some (String.length ref).
Proof.
  intros (pat & [i n] & Hpat & Hspan & ->)%reference_origin.
  destruct (finditer_spans true pat txt) as [_ Hall].
  rewrite Forall_forall in Hall. destruct (Hall _ Hspan) as (Hpos & Hend & Hm).
  cbn [fst snd] in *.
  assert (String.length (slice i n txt) = n) as Hlen.
  { unfold slice. apply str_take_length. rewrite str_drop_length. lia. }
  split.
  - intros E. rewrite E in Hlen. simpl in Hlen. lia.
  - exists pat, (str_take i txt), (str_drop (i + n) txt).
    split; [exact Hpat|]. split; [apply slice_occurs|].
    rewrite Hlen, <- Hm. f_equal.
    unfold slice. rewrite <- str_drop_drop. apply str_take_drop.
Qed.

Lemma detector_references_are_verbatim_witness :
  "Table 12" <> "" /\
  exists pat before behind,
    pat ∈ figure_patterns /\
    "As Table 12 and table 3 show" = before +:+ "Table 12" +:+ behind /\
    match_here true pat ("Table 12" +:+ behind) = Some (String.length "Table 12").
Proof.
  apply (detector_references_are_verbatim "As Table 12 and table 3 show" "Table 12").
  apply list_elem_of_In. vm_compute. tauto.
Defined.

(** ** The cleaner on a blank text *)

Lemma collapse_from_blank (s : string) :
  all_space s = true ->
  collapse_from true s = "" /\
  collapse_from false s = match s with "" => "" | String _ _ => " " end.
Proof.
  induction s as [|c s IH]; [split; reflexivity|].
  simpl. intros [Hc Hs]%andb_true_iff. rewrite Hc.
  destruct (IH Hs) as [-> _]. split; reflexivity.
Qed.

Lemma cleaner_blank_text_eq (txt : string) :
  all_space txt = true -> clean_text_for_tts txt = "".
Proof.
  intros H. unfold clean_text_for_tts. rewrite insert_pauses_spec.
  destruct (collapse_from_blank txt H) as [_ ->].
  destruct txt; reflexivity.
Qed.

Lemma collapse_from_ink (in_run : bool) (s : string) :
  all_space (collapse_from in_run s) = true -> all_space s = true.
Proof.
  revert in_run. induction s as [|c s IH]; intros in_run; [reflexivity|].
  simpl. destruct (isspace c) eqn:Hc.
  - destruct in_run; [apply IH|]. simpl. apply IH.
  - simpl. now rewrite Hc.
Qed.

Lemma pause_after_ink (q : ascii) (s : string) :
  all_space (pause_after q s) = true -> all_space s = true.
Proof.
  induction s as [|c s IH]; [reflexivity|]. cbn [pause_after].
  destruct (Ascii.eqb c q && starts_with_capital s); simpl;
    intros [Hc Hs]%andb_true_iff; rewrite Hc; simpl; now apply IH.
Qed.

Lemma replace_aux_ink (old new s : string) (skip : nat) :
  all_space new = false ->
  all_space (replace_aux old new s skip) = true ->
  all_space (str_drop skip s) = true.
Proof.
  intros Hnew. revert skip. induction s as [|c s IH]; intros skip.
  - now destruct skip.
  - cbn [replace_aux]. destruct skip as [|k]; [|apply IH].
    case_if.
    + rewrite all_space_app, Hnew. discriminate.
    + simpl. intros [Hc Hs]%andb_true_iff. rewrite Hc. simpl.
      specialize (IH 0 Hs). now destruct s.
Qed.

Lemma replace_ink (old new s : string) :
  old <> "" -> all_space new = false ->
  all_space (replace old new s) = true -> all_space s = true.
Proof.
  intros Hold Hnew H. destruct old as [|o old]; [congruence|].
  unfold replace in H. apply replace_aux_ink in H; [|exact Hnew].
  now destruct s.
Qed.

Lemma expand_abbreviations_ink (s : string) :
  all_space (expand_abbreviations s) = true -> all_space s = true.
Proof.
  unfold expand_abbreviations. cbn [abbreviations fold_left]. intros H.
  do 5 (apply replace_ink in H; [|discriminate|reflexivity]).
  exact H.
Qed.

Lemma strip_ink (s : string) : all_space (strip s) = true -> all_space s = true.
Proof.
  intros H. apply strip_empty_iff.
  destruct (strip s) as [|c r] eqn:Hs; [reflexivity|].
  unfold strip in Hs. destruct (lstrip s) as [|d t] eqn:Hl; [discriminate|].
  pose proof (lstrip_head s d t Hl) as Hd. simpl in Hs.
  destruct (rstrip t); [rewrite Hd in Hs|]; injection Hs as <- <-;
    simpl in H; rewrite Hd in H; discriminate.
Qed.

(** X6.  The cleaner gives the empty string exactly for a text that is
    empty or consists of white space only: a text with a visible
    character is never cleaned away. *)
Theorem cleaner_empty_only_for_blank (txt : string) :
  clean_text_for_tts txt = "" <-> all_space txt = true.
Proof.
  split; [|apply cleaner_blank_text_eq].
  intros H.
  assert (all_space (clean_text_for_tts txt) = true) as Hb by now rewrite H.
  unfold clean_text_for_tts in Hb.
  apply strip_ink, expand_abbreviations_ink in Hb.
  rewrite insert_pauses_spec in Hb.
  now apply pause_after_ink, pause_after_ink, collapse_from_ink in Hb.
Qed.

Lemma cleaner_empty_only_for_blank_witness :
  clean_text_for_tts (String "009" (String "010" "  ")) = "".
Proof.
  apply (cleaner_empty_only_for_blank (String "009" (String "010" "  "))).
  reflexivity.
Defined.

(** ** Segment file names *)

Lemma str_take_app_length (a b : string) : str_take (String.length a) (a +:+ b) = a.
Proof.
  induction a as [|c a IH]; [now destruct b|].
  rewrite str_app_cons. simpl. now rewrite IH.
Qed.

Lemma str_drop_app_length (a b : string) : str_drop (String.length a) (a +:+ b) = b.
Proof.
  induction a as [|c a IH]; [now destruct b|].
  rewrite str_app_cons. simpl. exact IH.
Qed.

Lemma uint_of_zeros (k : nat) (s : string) (d : uint) :
  NilEmpty.uint_of_string s = Some d ->
  exists d', NilEmpty.uint_of_string (zeros k +:+ s) = Some d' /\
             Nat.of_uint d' = Nat.of_uint d.
Proof.
  intros H. induction k as [|k (d' & Hd' & Hv)]; [now exists d|].
  exists (D0 d'). split; [|exact Hv].
  cbn [zeros]. rewrite str_app_cons. cbn [NilEmpty.uint_of_string].
  now rewrite Hd'.
Qed.

Lemma index_of_file_name_spec (i : nat) :
  index_of_file_name (segment_file_name i) = Some i.
Proof.
  unfold index_of_file_name, segment_file_name.
  assert (String.length ("segment_" +:+ format_04d i +:+ ".wav") - 12
          = String.length (format_04d i)) as ->.
  { rewrite !str_length_app. simpl. lia. }
  change (str_drop 8 ("segment_" +:+ format_04d i +:+ ".wav"))
    with (format_04d i +:+ ".wav").
  rewrite str_take_app_length. unfold format_04d, str_of_nat.
  destruct (uint_of_zeros (4 - String.length (NilEmpty.string_of_uint (Nat.to_uint i)))
              _ _ (NilEmpty.usu (Nat.to_uint i))) as (d' & -> & Hv).
  simpl. now rewrite Hv, Unsigned.of_to.
Qed.

(** X7.  The index of a segment can be read back from the name of its
    audio file, in whatever directory the file is made; so two different
    segments never get the same file. *)
Theorem segment_file_names_round_trip (audio_dir : string) (i j : nat) :
  index_of_file_name (os_path_basename (output_file audio_dir i)) = Some i /\
  (i <> j -> output_file audio_dir i <> output_file audio_dir j).
Proof.
  assert (forall k, index_of_file_name (os_path_basename (output_file audio_dir k))
                    = Some k) as Hback.
  { intros k. unfold output_file.
    rewrite (basename_join audio_dir _ (has_slash_file_name k)).
    apply index_of_file_name_spec. }
  split; [apply Hback|].
  intros Hne E. pose proof (Hback i) as Hi. rewrite E, Hback in Hi. congruence.
Qed.

Lemma segment_file_names_round_trip_witness :
  index_of_file_name (os_path_basename (output_file "/tmp/audio/" 4321)) = Some 4321 /\
  output_file "audio" 3 <> output_file "audio" 12.
Proof.
  split.
  - apply (segment_file_names_round_trip "/tmp/audio/" 4321 0).
  - apply (segment_file_names_round_trip "audio" 3 12). lia.
Defined.

(** ** What a job leaves behind *)

Lemma synthesis_fold_frame (env : Env) (job audio_dir : string) (total : nat)
    (items : list (nat * TextSegment)) (w : World) (produced : list string) :
  audio_files w !! job = Some produced ->
  Forall (fun file => file ∈ disk w) produced ->
  let w' := fold_left (synthesis_step env job audio_dir total) items w in
  (forall other, other <> job ->
     processing_jobs w' !! other = processing_jobs w !! other /\
     audio_files w' !! other = audio_files w !! other) /\
  disk w ⊆ disk w' /\
  exists produced',
    audio_files w' !! job = Some produced' /\
    Forall (fun file => file ∈ disk w') produced'.
Proof.
  revert w produced. induction items as [|[i segment] items IH];
    intros w produced Hl Hd.
  - simpl. split; [auto|]. split; [reflexivity|]. eauto.
  - cbn [fold_left].
    destruct (synthesis_ok env audio_dir (i, segment)) eqn:Hok.
    + rewrite (synthesis_step_rendered env job audio_dir total w i segment
                 produced Hok Hl).
      set (file := output_file audio_dir i).
      set (w1 := set_job job (written_status total i)
                   (set_audio job (produced ++ [file]) (write_file file w))).
      destruct (IH w1 (produced ++ [file])) as (Hother & Hdisk & Hprod).
      { simpl. apply lookup_insert_eq. }
      { apply Forall_app. split.
        - eapply Forall_impl; [exact Hd|]. simpl.
          intros f Hf. now apply elem_of_union_r.
        - constructor; [|constructor]. simpl.
          now apply elem_of_union_l, elem_of_singleton. }
      cbn zeta in *. split; [|split; [|exact Hprod]].
      * intros other Hne. destruct (Hother other Hne) as [-> ->].
        simpl. now rewrite !lookup_insert_ne by congruence.
      * etransitivity; [|exact Hdisk]. simpl. apply union_subseteq_r.
    + rewrite (synthesis_step_skipped env job audio_dir total w i segment Hok).
      now apply (IH w produced).
Qed.

(** The frame of a whole job. *)
Lemma process_pdf_background_frame (env : Env) (job pdf_path : string) (w : World) :
  let final := process_pdf_background env job pdf_path w in
  (forall other, other <> job ->
     processing_jobs final !! other = processing_jobs w !! other /\
     audio_files final !! other = audio_files w !! other) /\
  disk w ⊆ disk final /\
  (forall segs, extract_text_from_pdf env pdf_path = Ok segs ->
     exists produced,
       audio_files final !! job = Some produced /\
       Forall (fun file => file ∈ disk final) produced).
Proof.
  cbn zeta. destruct (extract_text_from_pdf env pdf_path) as [segs|e] eqn:Hx.
  - rewrite (process_pdf_background_ok env job pdf_path w segs Hx).
    set (w40 := set_job job _ (set_job job _ w)).
    destruct (synthesis_fold_frame env job (mkdtemp env)
                (length (process_text_segments segs))
                (take (length (process_text_segments segs))
                      (enumerate 0 (process_text_segments segs)))
                (enter_synthesis job w40) [])
      as (Hother & Hdisk & Hprod).
    { simpl. apply lookup_insert_eq. }
    { constructor. }
    cbn zeta in *. fold (synthesis_loop env job (mkdtemp env)
                           (process_text_segments segs)
                           (length (process_text_segments segs))
                           (enter_synthesis job w40)) in *.
    split; [|split].
    + intros other Hne. cbn [set_job processing_jobs audio_files].
      rewrite !lookup_insert_ne by congruence.
      destruct (Hother other Hne) as [-> ->]. simpl.
      now rewrite !lookup_insert_ne by congruence.
    + exact Hdisk.
    + intros segs' _. exact Hprod.
  - unfold process_pdf_background. rewrite Hx. split; [|split].
    + intros other Hne. simpl. now rewrite !lookup_insert_ne by congruence.
    + reflexivity.
    + intros segs' [=].
Qed.

Lemma get_audio_segment_in_range (w : World) (job : string)
    (produced : list string) (pos : nat) (file : string) :
  audio_files w !! job = Some produced ->
  produced !! pos = Some file -> file ∈ disk w ->
  get_audio_segment w job (Z.of_nat pos)
  = Ok (mkFileResponse file "audio/wav"
          ("segment_" +:+ str_of_Z (Z.of_nat pos) +:+ ".wav")).
Proof.
  intros Ha Hp Hd. unfold get_audio_segment. rewrite Ha.
  pose proof (lookup_lt_Some _ _ _ Hp) as Hlt.
  destruct (Z.geb_spec (Z.of_nat pos) (Z.of_nat (length produced))); [lia|].
  unfold py_index. destruct (Z.ltb_spec (Z.of_nat pos) 0); [lia|].
  destruct (Z.ltb_spec (Z.of_nat pos) 0); [lia|].
  rewrite Nat2Z.id, Hp. now rewrite bool_decide_eq_true_2.
Qed.

(** X8.  When a job whose document could be read is over, every path of
    its audio list names a file that is on disk, so that every position
    of the list can be fetched: the endpoint answers with the file
    recorded there. *)
Theorem completed_job_audio_is_served (env : Env) (job pdf_path : string)
    (w : World) (segs : list RawSegment) :
  extract_text_from_pdf env pdf_path = Ok segs ->
  let final := process_pdf_background env job pdf_path w in
  exists produced,
    audio_files final !! job = Some produced /\
    Forall (fun file => file ∈ disk final) produced /\
    (forall pos file, produced !! pos = Some file ->
       get_audio_segment final job (Z.of_nat pos)
       = Ok (mkFileResponse file "audio/wav"
               ("segment_" +:+ str_of_Z (Z.of_nat pos) +:+ ".wav"))).
Proof.
  intros Hx final.
  destruct (process_pdf_background_frame env job pdf_path w) as (_ & _ & Hprod).
  destruct (Hprod segs Hx) as (produced & Ha & Hd).
  exists produced. split; [exact Ha|]. split; [exact Hd|].
  intros pos file Hp. apply (get_audio_segment_in_range _ _ produced); auto.
  rewrite Forall_forall in Hd. apply Hd. eapply list_elem_of_lookup_2. exact Hp.
Qed.

Lemma completed_job_audio_is_served_witness :
  get_audio_segment sample_final "job" 0
  = Ok (mkFileResponse "/tmp/audio/segment_0000.wav" "audio/wav" "segment_0.wav").
Proof.
  destruct (completed_job_audio_is_served (sample_env 1) "job" "paper.pdf"
              empty_world (segments_of_pages [Some sample_page]) eq_refl)
    as (produced & Ha & _ & Hget).
  apply (Hget 0). unfold sample_final in *.
  assert (produced = ["/tmp/audio/segment_0000.wav"; "/tmp/audio/segment_0002.wav"])
    as -> by (vm_compute in Ha; congruence).
  reflexivity.
Defined.

(** X9.  A job writes nothing but its own entries: the status and the
    audio list of every other job are after the job what they were
    before, and no file that was on disk is removed. *)
Theorem job_leaves_other_jobs_alone (env : Env) (job pdf_path : string)
    (w : World) (other : string) :
  other <> job ->
  let final := process_pdf_background env job pdf_path w in
  processing_jobs final !! other = processing_jobs w !! other /\
  audio_files final !! other = audio_files w !! other /\
  disk w ⊆ disk final.
Proof.
  intros Hne final.
  destruct (process_pdf_background_frame env job pdf_path w) as (Hother & Hdisk & _).
  destruct (Hother other Hne). auto.
Qed.

Lemma job_leaves_other_jobs_alone_witness :
  processing_jobs (process_pdf_background (sample_env 1) "second" "b.pdf" sample_final)
    !! "job"
  = Some (Result (mkResult "job" sample_segments 1 "completed")) /\
  audio_files (process_pdf_background (sample_env 1) "second" "b.pdf" sample_final)
    !! "job"
  = Some ["/tmp/audio/segment_0000.wav"; "/tmp/audio/segment_0002.wav"].
Proof.
  destruct (job_leaves_other_jobs_alone (sample_env 1) "second" "b.pdf"
              sample_final "job") as (Hj & Ha & _).
  - discriminate.
  - rewrite Hj, Ha. split; reflexivity.
Defined.

(** X10.  When the document cannot be read, the job ends in a status whose
    stage and message carry the text of the error and whose progress is
    back at 0, after the 20 of the first stage; nothing is rendered, the
    audio registry and the disk stay as they were, and a job that had no
    audio list gets not-found for every position. *)
Theorem unreadable_document_fails_the_job (env : Env) (job pdf_path : string)
    (w : World) (e : exn) :
  extract_text_from_pdf env pdf_path = Raise e ->
  let final := process_pdf_background env job pdf_path w in
  processing_jobs final !! job
    = Some (Status (mkStatus ("Error: " +:+ str_of_exn e) 0 (Some (str_of_exn e)))) /\
  shown_progress job (job_timeline env job pdf_path w) = [20%Z; 0%Z] /\
  last (job_timeline env job pdf_path w) = Some final /\
  audio_files final = audio_files w /\
  disk final = disk w /\
  (audio_files w !! job = None ->
   forall pos, get_audio_segment final job pos
               = Raise (HTTPException 404 "Audio files not found")).
Proof.
  intros Hx final. unfold final, process_pdf_background, job_timeline.
  rewrite Hx. split; [simpl; apply lookup_insert_eq|].
  split.
  { unfold shown_progress. cbn [omap list_omap set_job processing_jobs].
    rewrite !lookup_insert_eq. reflexivity. }
  split; [reflexivity|]. split; [reflexivity|]. split; [reflexivity|].
  intros Hnone pos. unfold get_audio_segment. cbn [set_job audio_files].
  now rewrite Hnone.
Qed.

Lemma unreadable_document_fails_the_job_witness :
  processing_jobs (process_pdf_background unreadable_env "job" "broken.pdf" empty_world)
    !! "job"
  = Some (Status (mkStatus "Error: No /Root object" 0 (Some "No /Root object"))) /\
  get_audio_segment
    (process_pdf_background unreadable_env "job" "broken.pdf" empty_world) "job" 0
  = Raise (HTTPException 404 "Audio files not found").
Proof.
  destruct (unreadable_document_fails_the_job unreadable_env "job" "broken.pdf"
              empty_world (Failure "No /Root object") eq_refl)
    as (Hentry & _ & _ & _ & _ & Hfetch).
  split; [exact Hentry|]. apply Hfetch. reflexivity.
Defined.

(** ** The progress a poller sees *)

Lemma sorted_app_lt (a b : list nat) (x y : nat) :
  StronglySorted lt (a ++ b) -> x ∈ a -> y ∈ b -> x < y.
Proof.
  induction a as [|z a IH]; intros Hs Hx Hy; [inversion Hx|].
  simpl in Hs. inversion Hs as [|? ? Hs' Hall]; subst.
  apply elem_of_cons in Hx as [->|Hx]; [|now apply IH].
  rewrite Forall_forall in Hall. apply Hall, elem_of_app. now right.
Qed.

Lemma rendered_indices_grow (env : Env) (audio_dir : string)
    (processed : list TextSegment) (k k' : nat) :
  k <= k' ->
  exists more,
    rendered_indices env audio_dir processed k'
    = rendered_indices env audio_dir processed k ++ more.
Proof.
  intros Hk. unfold rendered_indices.
  set (items := enumerate 0 processed).
  exists (map fst (filter (fun item => synthesis_ok env audio_dir item = true)
                          (drop k (take k' items)))).
  rewrite <- map_app, <- filter_app. f_equal. f_equal.
  rewrite <- (take_drop k (take k' items)) at 1. f_equal.
  rewrite take_take. f_equal. lia.
Qed.

Lemma turn_progress_bounds (env : Env) (audio_dir : string)
    (processed : list TextSegment) (k : nat) :
  (60 <= turn_progress env audio_dir processed k <= 90)%Z.
Proof.
  unfold turn_progress.
  destruct (last (rendered_indices env audio_dir processed k)) as [i|] eqn:Hl; [|lia].
  apply last_Some_elem_of in Hl.
  destruct (rendered_indices_bounds env audio_dir processed k) as (_ & Hb & _).
  cbn zeta in Hb. rewrite Forall_forall in Hb.
  apply segment_progress_bounds. now apply Hb.
Qed.

Lemma turn_progress_mono (env : Env) (audio_dir : string)
    (processed : list TextSegment) (k k' : nat) :
  k <= k' ->
  (turn_progress env audio_dir processed k
   <= turn_progress env audio_dir processed k')%Z.
Proof.
  intros Hk. destruct (rendered_indices_grow env audio_dir processed k k' Hk)
    as [more Hmore].
  pose proof (turn_progress_bounds env audio_dir processed k') as Hb'.
  unfold turn_progress in *. rewrite Hmore in *. rewrite last_app in *.
  destruct (last more) as [j|] eqn:Hj; [|lia].
  destruct (last (rendered_indices env audio_dir processed k)) as [i|] eqn:Hi; [|lia].
  apply last_Some_elem_of in Hi, Hj.
  destruct (rendered_indices_bounds env audio_dir processed k') as (Hs & Hbd & _).
  cbn zeta in Hs, Hbd. rewrite Hmore in Hs, Hbd.
  pose proof (sorted_app_lt _ _ i j Hs Hi Hj).
  rewrite Forall_forall in Hbd.
  assert (j < length processed) by (apply Hbd, elem_of_app; now right).
  apply segment_progress_mono; lia.
Qed.

Lemma turn_progress_shown (env : Env) (job audio_dir : string)
    (processed : list TextSegment) (k : nat) (w0 : World) :
  status_progress
    (processing_jobs
       (synthesis_loop env job audio_dir processed k (enter_synthesis job w0)) !! job)
  = Some (turn_progress env audio_dir processed k).
Proof.
  destruct (synthesis_loop_state env job audio_dir processed k w0) as [_ Hj].
  cbn zeta in Hj. rewrite Hj. unfold turn_progress.
  now destruct (last (rendered_indices env audio_dir processed k)).
Qed.

Lemma synthesis_loop_resumes (env : Env) (job audio_dir : string)
    (processed : list TextSegment) (k k' : nat) (w : World) :
  k <= k' ->
  synthesis_loop env job audio_dir processed k' w
  = fold_left (synthesis_step env job audio_dir (length processed))
      (drop k (take k' (enumerate 0 processed)))
      (synthesis_loop env job audio_dir processed k w).
Proof.
  intros Hk. unfold synthesis_loop. rewrite <- fold_left_app. f_equal.
  rewrite <- (take_drop k (take k' (enumerate 0 processed))) at 1. f_equal.
  rewrite take_take. f_equal. lia.
Qed.

(** X11.  In a job whose document can be read, the states between the
    turns of the synthesis loop are states of the run: the run goes on
    from the state after [k] turns with the turns that remain, and ends by
    writing progress 100 and then the result onto the state after the last
    turn.  In the state after [k] turns the entry of the job is a status
    whose progress lies between 60 and 90, and it is not lower than in the
    state after any earlier number of turns. *)
Theorem progress_never_goes_down (env : Env) (job pdf_path : string)
    (w : World) (segs : list RawSegment) :
  extract_text_from_pdf env pdf_path = Ok segs ->
  let processed := process_text_segments segs in
  let entered :=
    enter_synthesis job
      (set_job job
         (Status (mkStatus "Analyzing content for voice processing..." 40 None))
         (set_job job (Status (mkStatus "Extracting text from PDF..." 20 None)) w)) in
  let after k := synthesis_loop env job (mkdtemp env) processed k entered in
  process_pdf_background env job pdf_path w
  = set_job job
      (Result (mkResult job processed (first_total_pages segs) "completed"))
      (set_job job (Status (mkStatus "Finalizing..." 100 None))
         (after (length processed))) /\
  (forall k k', k <= k' ->
     after k'
     = fold_left (synthesis_step env job (mkdtemp env) (length processed))
         (drop k (take k' (enumerate 0 processed))) (after k)) /\
  (forall k, exists p,
     status_progress (processing_jobs (after k) !! job) = Some p /\
     p = turn_progress env (mkdtemp env) processed k /\
     (60 <= p <= 90)%Z) /\
  (forall k k' p p', k <= k' ->
     status_progress (processing_jobs (after k) !! job) = Some p ->
     status_progress (processing_jobs (after k') !! job) = Some p' ->
     (p <= p')%Z).
Proof.
  intros Hx processed entered after.
  split; [exact (process_pdf_background_ok env job pdf_path w segs Hx)|].
  split; [intros k k' Hk; now apply synthesis_loop_resumes|].
  split.
  - intros k. exists (turn_progress env (mkdtemp env) processed k).
    split; [apply turn_progress_shown|]. split; [reflexivity|].
    apply turn_progress_bounds.
  - intros k k' p p' Hk. unfold after, entered.
    rewrite !turn_progress_shown. intros [= <-] [= <-].
    now apply turn_progress_mono.
Qed.

Lemma progress_never_goes_down_witness :
  map (fun k =>
         status_progress
           (processing_jobs
              (synthesis_loop (sample_env 1) "job" "/tmp/audio" sample_segments k
                 (enter_synthesis "job"
                    (set_job "job"
                       (Status (mkStatus "Analyzing content for voice processing..."
                                         40 None))
                       (set_job "job"
                          (Status (mkStatus "Extracting text from PDF..." 20 None))
                          empty_world)))) !! "job"))
      [0; 1; 2; 3]
  = [Some 60; Some 70; Some 70; Some 90]%Z /\
  (60 <= 70)%Z.
Proof.
  destruct (progress_never_goes_down (sample_env 1) "job" "paper.pdf" empty_world
              (segments_of_pages [Some sample_page]) eq_refl)
    as (_ & _ & _ & Hmono).
  split; [reflexivity|].
  apply (Hmono 0 1 60%Z 70%Z); [lia | reflexivity | reflexivity].
Defined.

(** ** When nothing is skipped *)

Lemma all_kept_indices {A} (keep : nat * A -> Prop) `{!forall x, Decision (keep x)}
    (l : list A) (start k : nat) :
  (forall i x, l !! i = Some x -> keep (start + i, x)) ->
  map fst (filter keep (take k (enumerate start l))) = seq start (k `min` length l).
Proof.
  revert start k. induction l as [|x l IH]; intros start k Hall.
  - now destruct k.
  - destruct k as [|k]; [reflexivity|]. cbn [enumerate take length].
    rewrite filter_cons, decide_True.
    + cbn [map fst]. rewrite IH; [reflexivity|].
      intros i y Hi. replace (S start + i) with (start + S i) by lia.
      now apply Hall.
    + specialize (Hall 0 x eq_refl). now rewrite Nat.add_0_r in Hall.
Qed.

(** X12.  When the synthesis of every segment succeeds, the audio list has
    one entry per segment and the entry at position [i] is the file of the
    segment of index [i]: fetching position [i] serves
    [segment_<i:04d>.wav]. *)
Theorem positions_are_indices_without_failures (env : Env)
    (job pdf_path : string) (w : World) (segs : list RawSegment) :
  extract_text_from_pdf env pdf_path = Ok segs ->
  let processed := process_text_segments segs in
  let final := process_pdf_background env job pdf_path w in
  (forall i segment, processed !! i = Some segment ->
     synthesis_ok env (mkdtemp env) (i, segment) = true) ->
  audio_files final !! job
    = Some (map (output_file (mkdtemp env)) (seq 0 (length processed))) /\
  (forall i, i < length processed ->
     get_audio_segment final job (Z.of_nat i)
     = Ok (mkFileResponse (output_file (mkdtemp env) i) "audio/wav"
             ("segment_" +:+ str_of_Z (Z.of_nat i) +:+ ".wav"))).
Proof.
  intros Hx processed final Hall.
  destruct (completed_job_registries env job pdf_path w segs Hx) as [Ha _].
  fold processed final in Ha.
  assert (audio_files final !! job
          = Some (map (output_file (mkdtemp env)) (seq 0 (length processed)))) as Hlist.
  { rewrite Ha, <- filter_all_items. unfold rendered_indices.
    rewrite (all_kept_indices _ processed 0 (length processed)) by exact Hall.
    now rewrite Nat.min_id. }
  split; [exact Hlist|].
  intros i Hi.
  destruct (process_pdf_background_frame env job pdf_path w) as (_ & _ & Hprod).
  destruct (Hprod segs Hx) as (produced & Hp & Hd). fold final in Hp, Hd.
  rewrite Hlist in Hp. injection Hp as <-.
  assert (map (output_file (mkdtemp env)) (seq 0 (length processed)) !! i
          = Some (output_file (mkdtemp env) i)) as Hat.
  { rewrite list_lookup_fmap, lookup_seq_lt by exact Hi. reflexivity. }
  apply (get_audio_segment_in_range _ _ _ _ _ Hlist Hat).
  rewrite Forall_forall in Hd. apply Hd. eapply list_elem_of_lookup_2. exact Hat.
Qed.

Lemma positions_are_indices_without_failures_witness :
  get_audio_segment (process_pdf_background sound_env "job" "paper.pdf" empty_world)
    "job" 2
  = Ok (mkFileResponse "/tmp/audio/segment_0002.wav" "audio/wav" "segment_2.wav").
Proof.
  destruct (positions_are_indices_without_failures sound_env "job" "paper.pdf"
              empty_world (segments_of_pages [Some sample_page]) eq_refl)
    as [_ Hget].
  - reflexivity.
  - apply (Hget 2). vm_compute. lia.
Defined.

(** ** The answers of the fetch endpoint *)

Lemma get_audio_segment_not_found_witness :
  is_not_found (get_audio_segment sample_final "job" 2) = true.
Proof.
  apply (get_audio_segment_not_found sample_final "job" 2); [lia|].
  right. exists ["/tmp/audio/segment_0000.wav"; "/tmp/audio/segment_0002.wav"].
  split; [reflexivity|]. left. simpl. lia.
Defined.

(** X14.  Whatever the position, a file that the endpoint serves is an
    entry of the audio list of the requested job and is on disk: the entry
    at the position, or for a negative position the entry counted from
    the end.  And the endpoint lets an [IndexError] escape exactly for the
    positions below minus the length of an existing list. *)
Theorem fetch_serves_only_recorded_files (w : World) (job : string) (pos : Z) :
  (forall file, get_audio_segment w job pos = Ok file ->
     exists produced n saved,
       audio_files w !! job = Some produced /\
       produced !! n = Some saved /\ saved ∈ disk w /\
       Z.of_nat n = (if pos <? 0 then pos + Z.of_nat (length produced) else pos)%Z /\
       file = mkFileResponse saved "audio/wav"
                ("segment_" +:+ str_of_Z pos +:+ ".wav")) /\
  (get_audio_segment w job pos = Raise IndexError <->
   exists produced,
     audio_files w !! job = Some produced /\
     (pos < - Z.of_nat (length produced))%Z).
Proof.
  unfold get_audio_segment.
  destruct (audio_files w !! job) as [produced|]; cycle 1.
  { split; [discriminate|]. split; [discriminate | intros (? & [=] & _)]. }
  destruct (Z.geb_spec pos (Z.of_nat (length produced))) as [Hge|Hlt].
  { split; [discriminate|]. split; [discriminate|].
    intros (l & [= <-] & Hneg). lia. }
  unfold py_index.
  set (j := (if pos <? 0 then pos + Z.of_nat (length produced) else pos)%Z).
  assert (j < Z.of_nat (length produced))%Z as Hj
    by (unfold j; destruct (Z.ltb_spec pos 0); lia).
  destruct (Z.ltb_spec j 0) as [Hneg|Hnn].
  - split; [discriminate|]. split.
    + intros _. exists produced. split; [reflexivity|].
      unfold j in Hneg. destruct (Z.ltb_spec pos 0); lia.
    + reflexivity.
  - destruct (produced !! Z.to_nat j) as [saved|] eqn:Hl; cycle 1.
    { apply lookup_ge_None in Hl. lia. }
    destruct (bool_decide (saved ∈ disk w)) eqn:Hd.
    + apply bool_decide_eq_true in Hd. split.
      * intros file [= <-]. exists produced, (Z.to_nat j), saved.
        rewrite Z2Nat.id by lia. auto.
      * split; [discriminate|]. intros (l & [= <-] & Hlow).
        unfold j in Hnn. destruct (Z.ltb_spec pos 0); lia.
    + split; [discriminate|]. split; [discriminate|].
      intros (l & [= <-] & Hlow).
      unfold j in Hnn. destruct (Z.ltb_spec pos 0); lia.
Qed.

Lemma fetch_serves_only_recorded_files_witness :
  exists produced n saved,
    audio_files sample_final !! "job" = Some produced /\
    produced !! n = Some saved /\ saved ∈ disk sample_final /\
    Z.of_nat n = (-2 + Z.of_nat (length produced))%Z.
Proof.
  destruct (fetch_serves_only_recorded_files sample_final "job" (-2)) as [Hok _].
  destruct (Hok (mkFileResponse "/tmp/audio/segment_0000.wav" "audio/wav"
                   "segment_-2.wav") eq_refl)
    as (produced & n & saved & Ha & Hn & Hd & Hpos & _).
  exists produced, n, saved. auto.
Defined.

(** ** The upload and the polling *)

Lemma endswith_spec (suffix s : string) :
  endswith suffix s = true <-> exists stem, s = stem +:+ suffix.
Proof.
  unfold endswith. split.
  - intros [Hlen Heq]%andb_true_iff. apply Nat.leb_le in Hlen.
    apply String.eqb_eq in Heq.
    exists (str_take (String.length s - String.length suffix) s).
    pose proof (str_take_drop (String.length s - String.length suffix) s) as Hs.
    rewrite Heq in Hs. now symmetry.
  - intros [stem ->]. rewrite str_length_app. apply andb_true_iff. split.
    + apply Nat.leb_le. lia.
    + replace (String.length stem + String.length suffix - String.length suffix)
        with (String.length stem) by lia.
      rewrite str_drop_app_length. apply String.eqb_refl.
Qed.

(** X15.  An upload is refused with a 400 answer, and changes nothing,
    exactly when its file name does not end in [.pdf] (in lower case).
    Otherwise the job is registered under the fresh identifier with the
    status of progress 0 before the file is saved; when the file can be
    saved, the answer carries that identifier, the task is added for the
    saved path, and no other entry and no audio list is touched. *)
Theorem upload_is_validated_and_registered (rq : Request) (file : UploadFile)
    (w : World) :
  let pdf_path := os_path_join (upload_dir rq) (filename file) in
  let uploading := Status (mkStatus "Uploading file..." 0 None) in
  ((forall stem, filename file <> stem +:+ ".pdf") <->
   process_pdf rq file w = (Raise (HTTPException 400 "File must be a PDF"), w)) /\
  (forall stem, filename file = stem +:+ ".pdf" ->
     processing_jobs (snd (process_pdf rq file w)) !! uuid4 rq = Some uploading /\
     (forall other, other <> uuid4 rq ->
        processing_jobs (snd (process_pdf rq file w)) !! other
        = processing_jobs w !! other) /\
     audio_files (snd (process_pdf rq file w)) = audio_files w /\
     (open_wb rq pdf_path = true ->
      fst (process_pdf rq file w) = Ok (mkAccepted (uuid4 rq) (uuid4 rq) pdf_path) /\
      pdf_path ∈ disk (snd (process_pdf rq file w))) /\
     (open_wb rq pdf_path = false ->
      fst (process_pdf rq file w) = Raise (Failure "open"))).
Proof.
  cbn zeta. unfold process_pdf.
  destruct (endswith ".pdf" (filename file)) eqn:Hend; simpl negb; cbv iota.
  - apply endswith_spec in Hend as [stem0 Hstem]. split.
    + split.
      * intros Hno. now destruct (Hno stem0).
      * destruct (open_wb rq _); discriminate.
    + intros stem _.
      destruct (open_wb rq (os_path_join (upload_dir rq) (filename file))) eqn:Hopen;
        cbn [fst snd write_file set_job processing_jobs audio_files disk].
      * rewrite lookup_insert_eq. repeat split; try discriminate.
        -- intros other Hne. now rewrite lookup_insert_ne by congruence.
        -- now apply elem_of_union_l, elem_of_singleton.
      * rewrite lookup_insert_eq. repeat split; try discriminate.
        intros other Hne. now rewrite lookup_insert_ne by congruence.
  - split.
    + split; [reflexivity|]. intros _ stem Hstem.
      assert (endswith ".pdf" (filename file) = true) as Hyes
        by (apply endswith_spec; eauto).
      congruence.
    + intros stem Hstem.
      assert (endswith ".pdf" (filename file) = true) as Hyes
        by (apply endswith_spec; eauto).
      congruence.
Qed.

Lemma upload_is_validated_and_registered_witness :
  process_pdf sample_request (mkUpload "paper.PDF" "%PDF-1.7") empty_world
    = (Raise (HTTPException 400 "File must be a PDF"), empty_world) /\
  fst (process_pdf sample_request (mkUpload "paper.pdf" "%PDF-1.7") empty_world)
    = Ok (mkAccepted "job" "job" "/tmp/upload/paper.pdf").
Proof.
  split.
  - apply (upload_is_validated_and_registered sample_request
             (mkUpload "paper.PDF" "%PDF-1.7") empty_world).
    intros stem E.
    assert (endswith ".pdf" "paper.PDF" = true) as Hyes
      by (apply endswith_spec; exists stem; exact E).
    discriminate.
  - destruct (upload_is_validated_and_registered sample_request
                (mkUpload "paper.pdf" "%PDF-1.7") empty_world) as [_ Hacc].
    destruct (Hacc "paper" eq_refl) as (_ & _ & _ & Hsaved & _).
    apply Hsaved. reflexivity.
Defined.

Lemma process_pdf_accepted (rq : Request) (file : UploadFile) (w : World) (stem : string) :
  filename file = stem +:+ ".pdf" ->
  open_wb rq (os_path_join (upload_dir rq) (filename file)) = true ->
  process_pdf rq file w
  = (Ok (mkAccepted (uuid4 rq) (uuid4 rq)
           (os_path_join (upload_dir rq) (filename file))),
     write_file (os_path_join (upload_dir rq) (filename file))
       (set_job (uuid4 rq) (Status (mkStatus "Uploading file..." 0 None)) w)).
Proof.
  intros Hstem Hopen. unfold process_pdf.
  rewrite (proj2 (endswith_spec ".pdf" (filename file))) by eauto.
  simpl negb. cbv iota. now rewrite Hopen.
Qed.

(** X16.  Once an upload has been accepted and its background task has
    run, polling the identifier that was answered never gives not-found:
    it gives the result with status [completed] when the saved document
    could be read, and the failed status with the text of the error when
    it could not; polling any other identifier gives what it gave before
    the upload. *)
Theorem accepted_upload_can_be_polled (env : Env) (rq : Request)
    (file : UploadFile) (w : World) (stem : string) :
  filename file = stem +:+ ".pdf" ->
  let pdf_path := os_path_join (upload_dir rq) (filename file) in
  open_wb rq pdf_path = true ->
  let after := snd (upload_request env rq file w) in
  fst (upload_request env rq file w)
    = Ok (mkAccepted (uuid4 rq) (uuid4 rq) pdf_path) /\
  (forall segs, extract_text_from_pdf env pdf_path = Ok segs ->
     get_processing_status after (uuid4 rq)
     = Ok (Result (mkResult (uuid4 rq) (process_text_segments segs)
                     (first_total_pages segs) "completed"))) /\
  (forall e, extract_text_from_pdf env pdf_path = Raise e ->
     get_processing_status after (uuid4 rq)
     = Ok (Status (mkStatus ("Error: " +:+ str_of_exn e) 0 (Some (str_of_exn e))))) /\
  (forall other, other <> uuid4 rq ->
     get_processing_status after other = get_processing_status w other).
Proof.
  intros Hstem pdf_path Hopen after. unfold after, upload_request.
  rewrite (process_pdf_accepted rq file w stem Hstem Hopen).
  cbn [fst snd task_job_id task_pdf_path]. fold pdf_path.
  set (w1 := write_file pdf_path
               (set_job (uuid4 rq) (Status (mkStatus "Uploading file..." 0 None)) w)).
  split; [reflexivity|]. unfold get_processing_status. split; [|split].
  - intros segs Hx.
    destruct (completed_job_registries env (uuid4 rq) pdf_path w1 segs Hx) as [_ ->].
    reflexivity.
  - intros e Hx. unfold process_pdf_background. rewrite Hx. simpl.
    now rewrite lookup_insert_eq.
  - intros other Hne.
    destruct (process_pdf_background_frame env (uuid4 rq) pdf_path w1)
      as (Hother & _ & _).
    destruct (Hother other Hne) as [-> _]. unfold w1. simpl.
    now rewrite lookup_insert_ne by congruence.
Qed.

Lemma accepted_upload_can_be_polled_witness :
  get_processing_status
    (snd (upload_request (sample_env 1) sample_request
            (mkUpload "paper.pdf" "%PDF-1.7") empty_world)) "job"
  = Ok (Result (mkResult "job" sample_segments 1 "completed")).
Proof.
  destruct (accepted_upload_can_be_polled (sample_env 1) sample_request
              (mkUpload "paper.pdf" "%PDF-1.7") empty_world "paper" eq_refl eq_refl)
    as (_ & Hdone & _).
  apply (Hdone (segments_of_pages [Some sample_page])). reflexivity.
Defined.

(** ** Ad-hoc synthesis *)

(** X17.  The ad-hoc synthesis never touches the two registries and never
    answers not-found.  It answers the file, named
    [synthesized_audio.wav], exactly when a model is loaded and renders
    the cleaned text, and a 500 error otherwise; the temporary file is on
    disk afterwards whenever a model is loaded, also when the synthesis
    failed; and a blank text is spoken as the empty text. *)
Theorem adhoc_synthesis_answers (env : Env) (temp_name raised txt : string)
    (w : World) :
  let answer := fst (synthesize_text env temp_name raised txt w) in
  let after := snd (synthesize_text env temp_name raised txt w) in
  processing_jobs after = processing_jobs w /\
  audio_files after = audio_files w /\
  (answer = Ok (mkFileResponse temp_name "audio/wav" "synthesized_audio.wav") <->
   exists tts_to_file,
     tts_model env = Some tts_to_file /\
     tts_to_file (clean_text_for_tts txt) temp_name = true) /\
  (answer = Ok (mkFileResponse temp_name "audio/wav" "synthesized_audio.wav") \/
   exists detail, answer = Raise (HTTPException 500 detail)) /\
  (tts_model env <> None -> temp_name ∈ disk after) /\
  (all_space txt = true ->
   synthesize_text env temp_name raised txt w
   = synthesize_text env temp_name raised "" w).
Proof.
  cbn zeta. unfold synthesize_text.
  destruct (tts_model env) as [tts|] eqn:Hm.
  - destruct (tts (clean_text_for_tts txt) temp_name) eqn:Hok;
      cbn [fst snd write_file processing_jobs audio_files disk].
    + repeat split; eauto.
      * intros _. now apply elem_of_union_l, elem_of_singleton.
      * intros Hb. rewrite (cleaner_blank_text_eq txt Hb) in *.
        change (clean_text_for_tts "") with "". now rewrite Hok.
    + repeat split; eauto; try discriminate.
      * intros (tts' & [= <-] & Hyes). congruence.
      * intros _. now apply elem_of_union_l, elem_of_singleton.
      * intros Hb. rewrite (cleaner_blank_text_eq txt Hb) in *.
        change (clean_text_for_tts "") with "". now rewrite Hok.
  - cbn [fst snd]. repeat split; eauto; try discriminate.
    + intros (tts' & [=] & _).
    + congruence.
Qed.

Lemma adhoc_synthesis_answers_witness :
  fst (synthesize_text sound_env "/tmp/tmpab12.wav" "out of memory"
         "  Results,As  shown  " empty_world)
  = Ok (mkFileResponse "/tmp/tmpab12.wav" "audio/wav" "synthesized_audio.wav") /\
  "/tmp/audio/segment_0000.wav"
    ∈ disk (snd (synthesize_text (sample_env 0) "/tmp/audio/segment_0000.wav"
                   "out of memory" "x" empty_world)).
Proof.
  split.
  - apply (adhoc_synthesis_answers sound_env "/tmp/tmpab12.wav" "out of memory"
             "  Results,As  shown  " empty_world).
    exists (fun _ _ => true). split; reflexivity.
  - apply (adhoc_synthesis_answers (sample_env 0) "/tmp/audio/segment_0000.wav"
             "out of memory" "x" empty_world).
    discriminate.
Defined.
